(** * A shallow embedding of the cvxpy canonicalization pipeline

    The development follows three source files:
    - [reductions/eliminate_pwl/atom_canonicalizers/norm_inf_canon.py]
      (module [NormInf]),
    - the affine term algebra exercised by [tests/test_affine_objective.py]
      (module [Aff]),
    - [problems/problem.py] (module [Prob]).

    Part I holds the definitions, Part II the theorems. *)

From stdpp Require Import base list gmap strings sorting.
From Stdlib Require PrimFloat.

(* ================================================================= *)
(** * Part I: definitions *)
(* ================================================================= *)

(* ----------------------------------------------------------------- *)
(** ** norm_inf_canon.py *)

Module NormInf.

(** A shape is a tuple of integers; [Variable( *shape )] unpacks it. *)
Definition Shape := list nat.

(** The expression capabilities that [norm_inf_canon] consumes.  The
    classes [Expression] and [Variable] and the function [promote] are
    imported by the source file and are parameters here.  [mk_Variable
    shape i] is the object built by [Variable( *shape )] when the global
    identifier counter stands at [i]; [le x y] is [x <= y], [ge x k] is
    [x >= k] for an integer literal [k], [add x y] is [x + y]. *)
Class ExpressionAPI (Expr Constr : Type) := {
  shape : Expr → Shape;
  mk_Variable : Shape → nat → Expr;
  promote : Expr → Shape → Expr;
  add : Expr → Expr → Expr;
  le : Expr → Expr → Constr;
  ge : Expr → Z → Constr;
  shape_mk_Variable : ∀ s i, shape (mk_Variable s i) = s;
}.

(** Results of a Python call: a value or a raised exception. *)
Inductive Raises (A : Type) :=
| Return (a : A)
| IndexError.
Arguments Return {A} a.
Arguments IndexError {A}.

Section Canon.
Context {Expr Constr : Type} `{API : ExpressionAPI Expr Constr}.

(** [norm_inf_canon(expr, args)].  The state threaded through is the
    identifier counter that [Variable] draws from. *)
Definition norm_inf_canon (expr : Expr) (args : list Expr) (next_id : nat)
  : Raises (Expr * list Constr) * nat :=
  match args !! 0 with
  | None => (IndexError, next_id)
  | Some x =>
      let shape_ := shape expr in
      let t := mk_Variable shape_ next_id in
      let next_id := S next_id in
      let promoted_t := promote t (shape x) in
      (Return (t, [le x promoted_t; ge (add x promoted_t) 0]), next_id)
  end.
End Canon.

(** A free instance: expressions and constraints as syntax trees, used to
    evaluate the rewrite on concrete inputs.  A sum has the shape of its
    left operand here. *)
Inductive SynExpr :=
| SVariable (s : Shape) (i : nat)
| SLeaf (name : string) (s : Shape)
| SNormInf (x : SynExpr) (s : Shape)
| SPromote (e : SynExpr) (s : Shape)
| SAdd (l r : SynExpr).

Inductive SynConstr :=
| SLe (l r : SynExpr)
| SGe (l : SynExpr) (k : Z).

Fixpoint syn_shape (e : SynExpr) : Shape :=
  match e with
  | SVariable s _ | SLeaf _ s | SNormInf _ s | SPromote _ s => s
  | SAdd l _ => syn_shape l
  end.

Fixpoint syn_var_ids (e : SynExpr) : list nat :=
  match e with
  | SVariable _ i => [i]
  | SLeaf _ _ => []
  | SNormInf x _ | SPromote x _ => syn_var_ids x
  | SAdd l r => syn_var_ids l ++ syn_var_ids r
  end.

#[export] Instance syn_API : ExpressionAPI SynExpr SynConstr := {|
  shape := syn_shape;
  mk_Variable := SVariable;
  promote := SPromote;
  add := SAdd;
  le := SLe;
  ge := SGe;
  shape_mk_Variable := λ _ _, eq_refl;
|}.

End NormInf.

(* ----------------------------------------------------------------- *)
(** ** Shared vocabulary: settings, matrix interface, variables *)

(** The two matrix targets named by [problem.py]. *)
Inductive Target := DENSE_TARGET | SPARSE_TARGET.

#[export] Instance Target_eq_dec : EqDecision Target.
Proof. solve_decision. Defined.

(** Modelled from the spec: the scalar variable slot.  [settings.CONSTANT]
    and [Variable.index_id] are not part of the sources; a slot is the
    triple (variable identity, row, col) and one reserved slot stands for
    the constant offset. *)
Inductive SlotId :=
| CONSTANT
| IndexId (id : string) (row col : nat).

#[export] Instance SlotId_eq_dec : EqDecision SlotId.
Proof. solve_decision. Defined.

#[export] Instance SlotId_countable : Countable SlotId.
Proof.
  refine (inj_countable'
    (λ s, match s with
          | CONSTANT => None
          | IndexId i r c => Some (i, r, c)
          end)
    (λ o, match o with
          | None => CONSTANT
          | Some (i, r, c) => IndexId i r c
          end) _).
  by intros [].
Defined.

(** The numeric interface ([interface.zeros], [interface.block_copy], matrix
    negation, transposition, [size], indexing and slicing of a result
    vector, and the sum and product the term algebra reduces chains with).
    [block_copy] updates its first argument in place; here it returns the
    updated matrix. *)
Class NumericInterface := {
  Num : Type;
  Mat : Type;
  zeros : Target → nat → nat → Mat;
  block_copy : Target → Mat → Mat → nat → nat → nat → nat → Mat;
  mat_size : Mat → nat * nat;
  mat_neg : Mat → Mat;
  mat_T : Mat → Mat;
  mat_getitem : Mat → nat → option Num;
  mat_getslice : Mat → nat → nat → Mat;
  mat_add : Mat → Mat → Mat;
  mat_mul : Mat → Mat → Mat;
}.

(** What the assembly expects of the sizes of an interface: [zeros(rows,
    cols)] has the size asked for and [block_copy] does not resize the
    matrix it writes into. *)
Class SizeLaws `{NI : NumericInterface} : Prop := {
  size_zeros : ∀ t r c, mat_size (zeros t r c) = (r, c);
  size_block_copy : ∀ t dst src vo ho r c,
    mat_size (block_copy t dst src vo ho r c) = mat_size dst;
}.

(** A variable object: its [id], its [size] and the matrix interface its
    value is stored with. *)
Record VariableObj := {
  var_id : string;
  var_size : nat * nat;
  var_interface : Target;
}.

Definition index_id (var : VariableObj) (row col : nat) : SlotId :=
  IndexId (var_id var) row col.

(* ----------------------------------------------------------------- *)
(** ** The affine term algebra (expressions/affine.py) *)

Module Aff.

Definition Shape := (nat * nat)%type.

(** The two failures of the algebra: a plain [Exception] carrying a
    message, and the non-affine error. *)
Inductive PyError :=
| Exception (msg : string)
| NonAffineError.

Inductive Raises (A : Type) :=
| Return (a : A)
| Raise (e : PyError).
Arguments Return {A} a.
Arguments Raise {A} e.

Definition IncompatibleDimensions : PyError :=
  Exception "Incompatible dimensions.".

Section Algebra.
Context `{NI : NumericInterface}.

(** A factor of a term: a variable reference or a constant, whose value
    is handed over in the representation of the chosen interface.  The
    leaf classes are not part of the sources. *)
Inductive Leaf :=
| LVariable (v : VariableObj)
| LConstant (name : string) (value : Target → Mat).

Definition is_variable (f : Leaf) : bool :=
  match f with LVariable _ => true | LConstant _ _ => false end.

(** [AffObjective(variables, terms, shape)], as [setUp] of the test
    builds it; a term is a deque of factors, the rightmost factor of the
    product first ([test_mul]: the term of [constAff * xAff] is
    [deque([x, A])]). *)
Record AffObjective := {
  _vars : list Leaf;
  _terms : list (list Leaf);
  _shape : Shape;
}.

Definition variables (a : AffObjective) : list Leaf := _vars a.

Definition has_variable (a : AffObjective) : bool :=
  existsb (existsb is_variable) (_terms a).

(** Modelled from the spec: [AffObjective.__add__], which is not part of
    the sources.  Two expressions are compatible for a sum iff their
    shapes match exactly; the sum concatenates the term collections;
    otherwise the dimension-mismatch error is raised, whose message
    [test_add] fixes. *)
Definition add (a b : AffObjective) : Raises AffObjective :=
  if decide (_shape a = _shape b) then
    Return {| _vars := _vars a ++ _vars b;
              _terms := _terms a ++ _terms b;
              _shape := _shape a |}
  else Raise IncompatibleDimensions.

(** The conformability rule of a matrix product, the shape rule that
    [test_mul] exercises: (2,2) times (2,1) is accepted, (2,1) times
    (2,1) is rejected. *)
Definition matmul_shape (l r : Shape) : option Shape :=
  if decide (l.2 = r.1) then Some (l.1, r.2) else None.

(** Modelled from the spec: [AffObjective.__mul__], which is not part of
    the sources.  The product multiplies the shapes first (an
    incompatible pair raises the exception that [test_mul] expects for
    [xAff * yAff]); a product of two variable-bearing operands is
    refused with the non-affine error; otherwise the product
    distributes over the terms, the factor chain of a left-hand term
    following the chain of a right-hand term.  The shape rule
    [shape_mul] of the product is a parameter. *)
Definition mul (shape_mul : Shape → Shape → option Shape)
    (a b : AffObjective) : Raises AffObjective :=
  match shape_mul (_shape a) (_shape b) with
  | None => Raise IncompatibleDimensions
  | Some sh =>
      if has_variable a && has_variable b then Raise NonAffineError
      else Return {| _vars := if has_variable a then _vars a else _vars b;
                     _terms := lh ← _terms a; rh ← _terms b; [rh ++ lh];
                     _shape := sh |}
  end.

(** Modelled from the spec: the coefficients of a leaf, which is not part
    of the sources.  A constant contributes its value under the reserved
    slot, a variable its own coefficient blocks ([Variable.coefficients],
    a parameter). *)
Definition leaf_coefficients
    (Variable_coefficients : VariableObj → Target → gmap SlotId Mat)
    (f : Leaf) (interface : Target) : gmap SlotId Mat :=
  match f with
  | LVariable v => Variable_coefficients v interface
  | LConstant _ value => {[ CONSTANT := value interface ]}
  end.

Section Coefficients.
Variable Variable_coefficients : VariableObj → Target → gmap SlotId Mat.

(** Modelled from the spec: the reduction of a factor chain, which is not
    part of the sources.  Every block of the first factor is
    left-multiplied by the constants that follow it in the chain; a factor
    without a constant block cannot be multiplied in ([None]). *)
Fixpoint dequeue_mults (coeffs : gmap SlotId Mat) (mults : list Leaf)
    (interface : Target) : option (gmap SlotId Mat) :=
  match mults with
  | [] => Some coeffs
  | lh :: mults =>
      c ← leaf_coefficients Variable_coefficients lh interface !! CONSTANT;
      dequeue_mults (mat_mul c <$> coeffs) mults interface
  end.

Definition term_coefficients (term : list Leaf) (interface : Target)
  : option (gmap SlotId Mat) :=
  match term with
  | [] => Some ∅
  | f :: mults =>
      dequeue_mults (leaf_coefficients Variable_coefficients f interface)
                    mults interface
  end.

(** Modelled from the spec: the accumulation of [coefficients], which is
    not part of the sources.  The blocks of [m] are added into [acc], and
    summed where both have the slot. *)
Definition accumulate (acc m : gmap SlotId Mat) : gmap SlotId Mat :=
  union_with (λ x y, Some (mat_add x y)) acc m.

Fixpoint coefficients_from (acc : gmap SlotId Mat)
    (terms : list (list Leaf)) (interface : Target)
  : option (gmap SlotId Mat) :=
  match terms with
  | [] => Some acc
  | term :: terms =>
      c ← term_coefficients term interface;
      coefficients_from (accumulate acc c) terms interface
  end.

(** Modelled from the spec: [AffObjective.coefficients(interface)],
    which is not part of the sources: every term is reduced to its
    blocks and the blocks are accumulated per slot. *)
Definition coefficients (a : AffObjective) (interface : Target)
  : option (gmap SlotId Mat) :=
  coefficients_from ∅ (_terms a) interface.
End Coefficients.
End Algebra.

End Aff.

(* ----------------------------------------------------------------- *)
(** ** problems/problem.py *)

Module Prob.

Inductive ObjRef :=
| VarRef (id : string)
| ConRef (oid : nat).

#[export] Instance ObjRef_eq_dec : EqDecision ObjRef.
Proof. solve_decision. Defined.

#[export] Instance ObjRef_countable : Countable ObjRef.
Proof.
  refine (inj_countable'
    (λ r, match r with VarRef i => inl i | ConRef n => inr n end)
    (λ s, match s with inl i => VarRef i | inr n => ConRef n end) _).
  by intros [].
Defined.

(** The values that are passed to [solve] as arguments and that name a
    solve method: [None], a string, an integer. *)
Inductive PyVal :=
| PyNone
| PyStr (s : string)
| PyInt (z : Z).

#[export] Instance PyVal_eq_dec : EqDecision PyVal.
Proof. solve_decision. Defined.

#[export] Instance PyVal_countable : Countable PyVal.
Proof.
  refine (inj_countable'
    (λ v, match v with
          | PyNone => inl ()
          | PyStr s => inr (inl s)
          | PyInt z => inr (inr z)
          end)
    (λ e, match e with
          | inl _ => PyNone
          | inr (inl s) => PyStr s
          | inr (inr z) => PyInt z
          end) _).
  by intros [].
Defined.

(** The exceptions that leave [solve]: the lookup of a solve method that
    is not registered, a call of [_solve] with arguments it does not
    take, and an index past the end of a result vector. *)
Inductive SolveError :=
| KeyError (key : PyVal)
| TypeError
| IndexError.

(** The cone-dimension dictionary [dims] with its keys 'l', 'q', 's'. *)
Record Dims := {
  dims_l : nat;
  dims_q : list nat;
  dims_s : list nat;
}.

Section Problem.
Context `{NI : NumericInterface}.

(** An object that answers [size], [variables()] and
    [coefficients(interface)]: a canonical affine expression. *)
Record AffObj := {
  aff_size : nat * nat;
  aff_variables : list VariableObj;
  aff_coefficients : Target → gmap SlotId Mat;
}.

(** Canonical constraint objects.  [con_id], [soc_id] and [oid] are the
    identities of the objects (what [set] hashes and compares); the
    other fields are their contents.  [soc_format] is the list that
    [SOC.format()] returns. *)
Record AffConstr := {
  con_id : nat;
  con_aff : AffObj;
  con_interface : Target;
}.

Record SOCConstr := {
  soc_id : nat;
  soc_size : nat;
  soc_format : list AffConstr;
}.

Inductive Constraint :=
| AffEqConstraint (c : AffConstr)
| AffLeqConstraint (c : AffConstr)
| SOC (c : SOCConstr)
| OtherObject (oid : nat).

Definition object_id (c : Constraint) : nat :=
  match c with
  | AffEqConstraint a | AffLeqConstraint a => con_id a
  | SOC s => soc_id s
  | OtherObject oid => oid
  end.

(** The contents of a constraint object, its identity (and the
    identities of the objects it formats to) blanked: two objects are
    structurally identical when their contents agree. *)
Definition blank (a : AffConstr) : AffConstr :=
  {| con_id := 0; con_aff := con_aff a; con_interface := con_interface a |}.

Definition contents (c : Constraint) : Constraint :=
  match c with
  | AffEqConstraint a => AffEqConstraint (blank a)
  | AffLeqConstraint a => AffLeqConstraint (blank a)
  | SOC s => SOC {| soc_id := 0; soc_size := soc_size s;
                    soc_format := blank <$> soc_format s |}
  | OtherObject _ => OtherObject 0
  end.

Definition structurally_identical (c1 c2 : Constraint) : Prop :=
  contents c1 = contents c2.

(** [list(set(constraints))]: the order in which a set is iterated is
    not fixed by the language; what is fixed is that no object comes
    twice, that only objects of the list come, and that each object of
    the list is there. *)
Class SetIteration := {
  list_set : list Constraint → list Constraint;
  list_set_NoDup l : NoDup (object_id <$> list_set l);
  list_set_sub l c : c ∈ list_set l → c ∈ l;
  list_set_sup l c : c ∈ l → object_id c ∈ object_id <$> list_set l;
}.

(** [c if isinstance(c, AffEqConstraint)] and its two siblings: the
    object when it is of the class. *)
Definition sel_eq (c : Constraint) : option AffConstr :=
  match c with AffEqConstraint a => Some a | _ => None end.
Definition sel_ineq (c : Constraint) : option AffConstr :=
  match c with AffLeqConstraint a => Some a | _ => None end.
Definition sel_soc (c : Constraint) : option SOCConstr :=
  match c with SOC s => Some s | _ => None end.

(** The classes [filter_constraints] knows. *)
Definition is_recognized (c : Constraint) : bool :=
  match c with OtherObject _ => false | _ => true end.

(** The objects held by the three buckets. *)
Definition bucket_objects
    (buckets : list AffConstr * list AffConstr * list SOCConstr)
  : list Constraint :=
  (AffEqConstraint <$> buckets.1.1) ++ (AffLeqConstraint <$> buckets.1.2)
  ++ (SOC <$> buckets.2).

(** A list of references is consistent when one identity names one
    object. *)
Definition identities_consistent (cs : list Constraint) : Prop :=
  ∀ c1 c2, c1 ∈ cs → c2 ∈ cs → object_id c1 = object_id c2 → c1 = c2.

Section Canonicalize.
Context `{SI : SetIteration}.

(** [Problem.filter_constraints] *)
Definition filter_constraints (constraints : list Constraint)
  : list AffConstr * list AffConstr * list SOCConstr :=
  let constraints := list_set constraints in
  let eq_constraints := omap sel_eq constraints in
  let ineq_constraints := omap sel_ineq constraints in
  let soc_constraints := omap sel_soc constraints in
  (eq_constraints, ineq_constraints, soc_constraints).

(** The objective and the constraints a problem is built from, with
    what their methods [is_dcp()], [canonical_form()] and
    [value(result)] answer. *)
Record ObjectiveObj := {
  obj_is_dcp : bool;
  obj_canonical_form : AffObj * list Constraint;
  obj_value : Num → Num;
}.

Record ConstraintExpr := {
  tc_is_dcp : bool;
  tc_canonical_form : option AffObj * list Constraint;
}.

Record Problem := {
  objective : ObjectiveObj;
  constraints : list ConstraintExpr;
  interface : Target;
}.

Definition dense_interface (self : Problem) : Target := DENSE_TARGET.

(** [Problem.is_dcp] *)
Definition is_dcp (self : Problem) : bool :=
  forallb tc_is_dcp (constraints self) && obj_is_dcp (objective self).

(** [Problem.canonicalize] *)
Definition canonicalize (self : Problem)
  : AffObj * list AffConstr * list AffConstr * Dims :=
  let '(obj, constraints_) := obj_canonical_form (objective self) in
  let constraints_ :=
    foldl (λ acc constr, acc ++ (tc_canonical_form constr).2)
          constraints_ (constraints self) in
  let '(eq_constr, ineq_constr, soc_constr) :=
    filter_constraints constraints_ in
  let l := sum_list ((λ c, (aff_size (con_aff c)).1 * (aff_size (con_aff c)).2)
                     <$> ineq_constr) in
  let ineq_constr :=
    foldl (λ acc constr, acc ++ soc_format constr) ineq_constr soc_constr in
  let q := soc_size <$> soc_constr in
  (obj, eq_constr, ineq_constr, {| dims_l := l; dims_q := q; dims_s := [] |}).
End Canonicalize.

(** The variables that [variables] gathers before it sorts them. *)
Definition collected (objective : AffObj) (constraints : list AffConstr)
  : list VariableObj :=
  aff_variables objective
  ++ concat ((λ c, aff_variables (con_aff c)) <$> constraints).

(** [{v.id: v for v in vars}], the entries added to [d0] in the order
    of the list. *)
Definition dict_from (d0 : gmap string VariableObj) (vars : list VariableObj)
  : gmap string VariableObj :=
  foldl (λ d v, <[var_id v := v]> d) d0 vars.

(** [sorted(var_id.keys())] *)
Definition sorted_keys (d : gmap string VariableObj) : list string :=
  merge_sort String.le (map_to_list d).*1.

(** [Problem.variables] *)
Definition variables (objective : AffObj) (constraints : list AffConstr)
  : list VariableObj :=
  let vars :=
    foldl (λ vars constr, vars ++ aff_variables (con_aff constr))
          (aff_variables objective) constraints in
  let var_id := dict_from ∅ vars in
  let keys := sorted_keys var_id in
  omap (λ k, var_id !! k) keys.

(** The slots of one variable: the two inner loops of
    [variable_ids], in column major order. *)
Definition slots (var : VariableObj) : list SlotId :=
  col ← seq 0 (var_size var).2;
  row ← seq 0 (var_size var).1;
  [index_id var row col].

(** [Problem.variable_ids] *)
Definition variable_ids (variables : list VariableObj) : list SlotId :=
  var ← variables; slots var.

Definition entries_of (v : VariableObj) : nat :=
  (var_size v).1 * (var_size v).2.

(** [Problem.constraints_matrix] *)
Definition constraints_matrix (aff_expressions : list AffObj)
    (var_ids : list SlotId) (interface : Target) : Mat :=
  let rows := sum_list ((λ aff, (aff_size aff).1 * (aff_size aff).2)
                        <$> aff_expressions) in
  let cols := length var_ids in
  let matrix := zeros interface rows cols in
  (foldl (λ '(matrix, vert_offset) aff_exp,
      let num_entries := (aff_size aff_exp).1 * (aff_size aff_exp).2 in
      let coefficients := aff_coefficients aff_exp interface in
      let matrix :=
        (foldl (λ '(matrix, horiz_offset) id,
            (match coefficients !! id with
             | Some block =>
                 block_copy interface matrix block
                            vert_offset horiz_offset num_entries 1
             | None => matrix
             end, horiz_offset + 1))
          (matrix, 0) var_ids).1 in
      (matrix, vert_offset + num_entries))
    (matrix, 0) aff_expressions).1.

(** The body of the inner loop of [constraints_matrix], over the slot
    ids, and the body of its outer loop, over the expressions. *)
Definition slot_step (interface : Target) (coefficients : gmap SlotId Mat)
    (vert_offset num_entries : nat) (acc : Mat * nat) (id : SlotId)
  : Mat * nat :=
  let '(matrix, horiz_offset) := acc in
  (match coefficients !! id with
   | Some block =>
       block_copy interface matrix block vert_offset horiz_offset num_entries 1
   | None => matrix
   end, horiz_offset + 1).

Definition expression_step (interface : Target) (var_ids : list SlotId)
    (acc : Mat * nat) (aff_exp : AffObj) : Mat * nat :=
  let '(matrix, vert_offset) := acc in
  let num_entries := (aff_size aff_exp).1 * (aff_size aff_exp).2 in
  let coefficients := aff_coefficients aff_exp interface in
  let matrix :=
    (foldl (slot_step interface coefficients vert_offset num_entries)
           (matrix, 0) var_ids).1 in
  (matrix, vert_offset + num_entries).

(** The number of entries of an affine object. *)
Definition aff_entries (aff : AffObj) : nat :=
  (aff_size aff).1 * (aff_size aff).2.

(** What [save_values] needs of an object: where its value is kept, its
    [size] and its [interface]. *)
Class Saveable (A : Type) := {
  obj_ref : A → ObjRef;
  obj_size : A → nat * nat;
  obj_interface : A → Target;
}.

#[export] Instance VariableObj_saveable : Saveable VariableObj := {|
  obj_ref v := VarRef (var_id v);
  obj_size := var_size;
  obj_interface := var_interface;
|}.

#[export] Instance AffConstr_saveable : Saveable AffConstr := {|
  obj_ref c := ConRef (con_id c);
  obj_size c := aff_size (con_aff c);
  obj_interface := con_interface;
|}.

(** The value saved on an object: a scalar or a matrix. *)
Inductive Value :=
| Scalar (x : Num)
| Matrix (m : Mat).

(** The value [save_values] computes for an object whose block starts
    at [offset]; indexing the result vector past its end raises
    ([None]). *)
Definition block_value {A} `{Saveable A} (result_vec : Mat) (offset : nat)
    (obj : A) : option Value :=
  let '(rows, cols) := obj_size obj in
  if decide ((rows, cols) = (1, 1)) then
    Scalar <$> mat_getitem result_vec offset
  else
    let value := zeros (obj_interface obj) rows cols in
    Some (Matrix (block_copy (obj_interface obj) value
            (mat_getslice result_vec offset (offset + rows * cols))
            0 0 rows cols)).

Definition obj_entries {A} `{Saveable A} (obj : A) : nat :=
  (obj_size obj).1 * (obj_size obj).2.

(** [Problem.save_values], from a given offset.  The store holds the
    [value] field of every object. *)
Fixpoint save_values_from {A} `{Saveable A} (result_vec : Mat)
    (objects : list A) (offset : nat) (store : gmap ObjRef Value)
  : option (gmap ObjRef Value) :=
  match objects with
  | [] => Some store
  | obj :: objects =>
      value ← block_value result_vec offset obj;
      save_values_from result_vec objects (offset + obj_entries obj)
                       (<[obj_ref obj := value]> store)
  end.

(** Where the block of the [i]-th object starts. *)
Definition offset_of {A} `{Saveable A} (objects : list A) (i : nat) : nat :=
  sum_list (obj_entries <$> take i objects).

Definition save_values {A} `{Saveable A} (result_vec : Mat)
    (objects : list A) (store : gmap ObjRef Value)
  : option (gmap ObjRef Value) :=
  save_values_from result_vec objects 0 store.

(** What a call of [save_values] leaves behind, also when an exception
    leaves it: the values saved before the failing index stay on their
    objects.  The flag tells whether the call returned. *)
Fixpoint save_values_effect {A} `{Saveable A} (result_vec : Mat)
    (objects : list A) (offset : nat) (store : gmap ObjRef Value)
  : gmap ObjRef Value * bool :=
  match objects with
  | [] => (store, true)
  | obj :: objects =>
      match block_value result_vec offset obj with
      | Some value =>
          save_values_effect result_vec objects (offset + obj_entries obj)
                             (<[obj_ref obj := value]> store)
      | None => (store, false)
      end
  end.

(** A 1 x 1 object of the list whose entry the result vector does not
    have: the index [result_vec[offset]] is past the end. *)
Definition entry_missing {A} `{Saveable A} (result_vec : Mat)
    (objects : list A) : Prop :=
  ∃ i obj, objects !! i = Some obj
           ∧ obj_size obj = (1, 1)
           ∧ mat_getitem result_vec (offset_of objects i) = None.

(** The two solver backends and what they answer. *)
Record ConelpResults := {
  conelp_status : string;
  conelp_primal_objective : Num;
  conelp_x : Mat;
  conelp_y : Mat;
  conelp_z : Mat;
}.

Record EcosResults := {
  ecos_exitFlag : Z;
  ecos_infostring : string;
  ecos_pcost : Num;
  ecos_x : Mat;
  ecos_y : Mat;
  ecos_z : Mat;
}.

(** [cvxopt.solvers.conelp(c,G,h,A=A,b=b,dims=dims)] and
    [ecos.ecos(c,G,h,dims,A,b)], each with its arguments in the order of
    the call. *)
Class Backends := {
  conelp : Mat → Mat → Mat → Mat → Mat → Dims → ConelpResults;
  ecos : Mat → Mat → Mat → Dims → Mat → Mat → EcosResults;
}.

(** What the solve branch leaves in its local variables. *)
Record Outcome := {
  results_x : Mat;
  results_y : Mat;
  results_z : Mat;
  solved : bool;
  status : string;
  primal_val : Num;
}.

Definition conelp_outcome (results : ConelpResults) : Outcome :=
  {| results_x := conelp_x results;
     results_y := conelp_y results;
     results_z := conelp_z results;
     solved := bool_decide (conelp_status results = "optimal");
     status := conelp_status results;
     primal_val := conelp_primal_objective results |}.

Definition ecos_outcome (results : EcosResults) : Outcome :=
  {| results_x := ecos_x results;
     results_y := ecos_y results;
     results_z := ecos_z results;
     solved := bool_decide (ecos_exitFlag results = 0%Z);
     status := ecos_infostring results;
     primal_val := ecos_pcost results |}.

(** What [_solve] returns: the objective value or the status string. *)
Inductive SolveResult :=
| ObjectiveValue (v : Num)
| StatusString (s : string).

(** The matrices handed to the backend. *)
Record Assembled := {
  asm_c : Mat;
  asm_G : Mat;
  asm_h : Mat;
  asm_A : Mat;
  asm_b : Mat;
  asm_dims : Dims;
}.

Section Solve.
Context `{SI : SetIteration} `{BE : Backends}.

(** The first half of [_solve]: canonical form, variable order and the
    five matrices. *)
Definition assemble (self : Problem)
  : list VariableObj * list AffConstr * list AffConstr * Assembled :=
  let '(objective, eq_constr, ineq_constr, dims) := canonicalize self in
  let variables := variables objective (eq_constr ++ ineq_constr) in
  let var_ids := variable_ids variables in
  let c := mat_T (constraints_matrix [objective] var_ids
                                     (dense_interface self)) in
  let A := constraints_matrix (con_aff <$> eq_constr) var_ids
                              (interface self) in
  let b := mat_neg (constraints_matrix (con_aff <$> eq_constr) [CONSTANT]
                                       (dense_interface self)) in
  let G := constraints_matrix (con_aff <$> ineq_constr) var_ids
                              (interface self) in
  let h := mat_neg (constraints_matrix (con_aff <$> ineq_constr) [CONSTANT]
                                       (dense_interface self)) in
  (variables, eq_constr, ineq_constr,
   {| asm_c := c; asm_G := G; asm_h := h; asm_A := A; asm_b := b;
      asm_dims := dims |}).

(** The test that targets cvxopt. *)
Definition targets_cvxopt (self : Problem) (m : Assembled) : bool :=
  (0 <? length (dims_s (asm_dims m)))
  || (Nat.min (mat_size (asm_G m)).1 (mat_size (asm_G m)).2 =? 0)
  || bool_decide (interface self = DENSE_TARGET).

(** The branch of [_solve] that calls a backend. *)
Definition backend_outcome (self : Problem) (m : Assembled) : Outcome :=
  if targets_cvxopt self m then
    conelp_outcome (conelp (asm_c m) (asm_G m) (asm_h m)
                           (asm_A m) (asm_b m) (asm_dims m))
  else
    ecos_outcome (ecos (asm_c m) (asm_G m) (asm_h m)
                       (asm_dims m) (asm_A m) (asm_b m)).

(** The three calls of [save_values] of the solved branch. *)
Definition write_back (out : Outcome) (variables : list VariableObj)
    (eq_constr ineq_constr : list AffConstr) (store : gmap ObjRef Value)
  : option (gmap ObjRef Value) :=
  store ← save_values (results_x out) variables store;
  store ← save_values (results_y out) eq_constr store;
  save_values (results_z out) ineq_constr store.

(** The same three calls, with the store they leave when one of them
    raises: the calls after it are not made. *)
Definition write_back_effect (out : Outcome) (variables : list VariableObj)
    (eq_constr ineq_constr : list AffConstr) (store : gmap ObjRef Value)
  : gmap ObjRef Value * bool :=
  let '(store, returned) :=
    save_values_effect (results_x out) variables 0 store in
  if returned then
    let '(store, returned) :=
      save_values_effect (results_y out) eq_constr 0 store in
    if returned then save_values_effect (results_z out) ineq_constr 0 store
    else (store, false)
  else (store, false).

(** The end of [_solve], once a backend has answered. *)
Definition conclude (self : Problem) (out : Outcome)
    (variables : list VariableObj) (eq_constr ineq_constr : list AffConstr)
    (store : gmap ObjRef Value)
  : option (gmap ObjRef Value * SolveResult) :=
  if solved out then
    store ← write_back out variables eq_constr ineq_constr store;
    Some (store,
          ObjectiveValue (obj_value (objective self) (primal_val out)))
  else Some (store, StatusString (status out)).

Definition dcp_message : list string :=
  ["Problem does not follow DCP rules."].

(** [Problem._solve].  The result is what was printed, and either
    [None] (an exception left [save_values]) or the store and the
    returned value. *)
Definition _solve (self : Problem) (store : gmap ObjRef Value)
  : list string * option (gmap ObjRef Value * SolveResult) :=
  let printed := if negb (is_dcp self) then dcp_message else [] in
  let '(variables, eq_constr, ineq_constr, m) := assemble self in
  let out := backend_outcome self m in
  (printed, conclude self out variables eq_constr ineq_constr store).

(** The [value] fields after a call of [_solve], however the call ends. *)
Definition store_after (self : Problem) (store : gmap ObjRef Value)
  : gmap ObjRef Value :=
  let '(variables, eq_constr, ineq_constr, m) := assemble self in
  let out := backend_outcome self m in
  if solved out then
    (write_back_effect out variables eq_constr ineq_constr store).1
  else store.

(** Two problems that differ at most in what [is_dcp()] answers. *)
Definition same_but_dcp (p p' : Problem) : Prop :=
  obj_canonical_form (objective p) = obj_canonical_form (objective p')
  ∧ obj_value (objective p) = obj_value (objective p')
  ∧ interface p = interface p'
  ∧ tc_canonical_form <$> constraints p
      = tc_canonical_form <$> constraints p'.

(** How a call of [solve] ends: it returns, leaving a store, or an
    exception leaves it. *)
Inductive Completion :=
| Returned (store : gmap ObjRef Value) (result : SolveResult)
| Raised (e : SolveError).

(** A solve method: what is registered under a name and called as
    [func(self, *args, **kwargs)]. *)
Definition SolveMethod : Type :=
  Problem → list PyVal → gmap string PyVal → gmap ObjRef Value
  → list string * Completion.

(** [Problem.register_solve]; the class attribute
    [REGISTERED_SOLVE_METHODS] is threaded as a state. *)
Definition register_solve (name : PyVal) (func : SolveMethod)
    (REGISTERED_SOLVE_METHODS : gmap PyVal SolveMethod)
  : gmap PyVal SolveMethod :=
  <[name := func]> REGISTERED_SOLVE_METHODS.

(** [self._solve( *args, **kwargs)]: [_solve] takes no argument besides
    [self]. *)
Definition call__solve (self : Problem) (args : list PyVal)
    (kwargs : gmap string PyVal) (store : gmap ObjRef Value)
  : list string * Completion :=
  if decide (args = [] ∧ kwargs = ∅) then
    let '(printed, result) := _solve self store in
    (printed,
     match result with
     | Some (store, r) => Returned store r
     | None => Raised IndexError
     end)
  else ([], Raised TypeError).

(** [Problem.solve] *)
Definition solve (REGISTERED_SOLVE_METHODS : gmap PyVal SolveMethod)
    (self : Problem) (args : list PyVal) (kwargs : gmap string PyVal)
    (store : gmap ObjRef Value) : list string * Completion :=
  let func_name := default PyNone (kwargs !! "method") in
  let kwargs := delete "method" kwargs in
  if decide (func_name ≠ PyNone) then
    match REGISTERED_SOLVE_METHODS !! func_name with
    | Some func => func self args kwargs store
    | None => ([], Raised (KeyError func_name))
    end
  else call__solve self args kwargs store.
End Solve.
End Problem.

End Prob.

(* ----------------------------------------------------------------- *)
(** ** Reference instances, on which the definitions are evaluated *)

(** Integer matrices stored column by column. *)
Module ZInterface.

Record ZMat := {
  nrows : nat;
  ncols : nat;
  entries : list Z;
}.

Definition z_get (m : ZMat) (i j : nat) : Z :=
  default 0%Z (entries m !! (j * nrows m + i)).

Definition z_zeros (_ : Target) (r c : nat) : ZMat :=
  {| nrows := r; ncols := c; entries := replicate (r * c) 0%Z |}.

Definition z_block_copy (_ : Target) (dst src : ZMat) (vo ho r c : nat) : ZMat :=
  {| nrows := nrows dst;
     ncols := ncols dst;
     entries :=
       foldl (λ es '(i, j),
                <[(ho + j) * nrows dst + (vo + i) :=
                    default 0%Z (entries src !! (j * r + i))]> es)
             (entries dst)
             (j ← seq 0 c; i ← seq 0 r; [(i, j)]) |}.

Definition z_neg (m : ZMat) : ZMat :=
  {| nrows := nrows m; ncols := ncols m; entries := Z.opp <$> entries m |}.

Definition z_T (m : ZMat) : ZMat :=
  {| nrows := ncols m;
     ncols := nrows m;
     entries := j ← seq 0 (nrows m); i ← seq 0 (ncols m); [z_get m j i] |}.

Definition z_getslice (m : ZMat) (a b : nat) : ZMat :=
  let es := take (b - a) (drop a (entries m)) in
  {| nrows := length es; ncols := 1; entries := es |}.

Definition z_add (m n : ZMat) : ZMat :=
  {| nrows := nrows m; ncols := ncols m;
     entries := zip_with Z.add (entries m) (entries n) |}.

Definition z_mul (m n : ZMat) : ZMat :=
  {| nrows := nrows m;
     ncols := ncols n;
     entries :=
       j ← seq 0 (ncols n); i ← seq 0 (nrows m);
       [foldr Z.add 0%Z ((λ l, z_get m i l * z_get n l j)%Z <$> seq 0 (ncols m))] |}.

#[export] Instance z_interface : NumericInterface := {|
  Num := Z;
  Mat := ZMat;
  zeros := z_zeros;
  block_copy := z_block_copy;
  mat_size m := (nrows m, ncols m);
  mat_neg := z_neg;
  mat_T := z_T;
  mat_getitem m i := entries m !! i;
  mat_getslice := z_getslice;
  mat_add := z_add;
  mat_mul := z_mul;
|}.

#[export] Instance z_size_laws : SizeLaws.
Proof. by split. Qed.

(** A column vector from its entries. *)
Definition column (es : list Z) : ZMat :=
  {| nrows := length es; ncols := 1; entries := es |}.

(** The coefficients of a variable: slot (row, col) of an r x c variable
    has the unit column with its one at position col * r + row. *)
Definition unit_coefficients (v : VariableObj) (_ : Target) : gmap SlotId ZMat :=
  let '(r, c) := var_size v in
  list_to_map (col ← seq 0 c; row ← seq 0 r;
               [(index_id v row col,
                 column (<[col * r + row := 1%Z]> (replicate (r * c) 0%Z)))]).

End ZInterface.

(** Matrices of binary64 numbers stored column by column, with the
    arithmetic of the machine: what a matrix of doubles computes. *)
Module FloatInterface.

Record FMat := {
  frows : nat;
  fcols : nat;
  fentries : list PrimFloat.float;
}.

Definition f_get (m : FMat) (i j : nat) : PrimFloat.float :=
  default PrimFloat.zero (fentries m !! (j * frows m + i)).

Definition f_zeros (_ : Target) (r c : nat) : FMat :=
  {| frows := r; fcols := c; fentries := replicate (r * c) PrimFloat.zero |}.

Definition f_block_copy (_ : Target) (dst src : FMat) (vo ho r c : nat) : FMat :=
  {| frows := frows dst;
     fcols := fcols dst;
     fentries :=
       foldl (λ es '(i, j),
                <[(ho + j) * frows dst + (vo + i) :=
                    default PrimFloat.zero (fentries src !! (j * r + i))]> es)
             (fentries dst)
             (j ← seq 0 c; i ← seq 0 r; [(i, j)]) |}.

Definition f_neg (m : FMat) : FMat :=
  {| frows := frows m; fcols := fcols m;
     fentries := PrimFloat.opp <$> fentries m |}.

Definition f_T (m : FMat) : FMat :=
  {| frows := fcols m;
     fcols := frows m;
     fentries := j ← seq 0 (frows m); i ← seq 0 (fcols m); [f_get m j i] |}.

Definition f_getslice (m : FMat) (a b : nat) : FMat :=
  let es := take (b - a) (drop a (fentries m)) in
  {| frows := length es; fcols := 1; fentries := es |}.

Definition f_add (m n : FMat) : FMat :=
  {| frows := frows m; fcols := fcols m;
     fentries := zip_with PrimFloat.add (fentries m) (fentries n) |}.

Definition f_mul (m n : FMat) : FMat :=
  {| frows := frows m;
     fcols := fcols n;
     fentries :=
       j ← seq 0 (fcols n); i ← seq 0 (frows m);
       [foldr PrimFloat.add PrimFloat.zero
          ((λ l, PrimFloat.mul (f_get m i l) (f_get n l j))
             <$> seq 0 (fcols m))] |}.

Definition float_interface : NumericInterface := {|
  Num := PrimFloat.float;
  Mat := FMat;
  zeros := f_zeros;
  block_copy := f_block_copy;
  mat_size m := (frows m, fcols m);
  mat_neg := f_neg;
  mat_T := f_T;
  mat_getitem m i := fentries m !! i;
  mat_getslice := f_getslice;
  mat_add := f_add;
  mat_mul := f_mul;
|}.

(** A column vector from its entries. *)
Definition fcolumn (es : list PrimFloat.float) : FMat :=
  {| frows := length es; fcols := 1; fentries := es |}.

End FloatInterface.

(** [set] iterated in the order of first insertion. *)
Module InsertionOrder.
Section Dedup.
Context `{NI : NumericInterface}.

Fixpoint dedup (seen : list nat) (l : list Prob.Constraint)
  : list Prob.Constraint :=
  match l with
  | [] => []
  | c :: l =>
      if decide (Prob.object_id c ∈ seen) then dedup seen l
      else c :: dedup (Prob.object_id c :: seen) l
  end.

(** [set] iterated from the object inserted last to the one inserted
    first. *)
Definition reversed (l : list Prob.Constraint) : list Prob.Constraint :=
  reverse (dedup [] l).
End Dedup.
End InsertionOrder.


(** The fixtures of [test_affine_objective.py] ([setUp]). *)
Module AffFixtures.
Import Aff ZInterface.

Definition x : VariableObj :=
  {| var_id := "x"; var_size := (2, 1); var_interface := DENSE_TARGET |}.
Definition y : VariableObj :=
  {| var_id := "y"; var_size := (2, 1); var_interface := DENSE_TARGET |}.

(** [Constant([[1, 2], [1, 2]])]: the inner lists are the columns. *)
Definition A : Leaf :=
  LConstant "A" (λ _, {| nrows := 2; ncols := 2; entries := [1; 2; 1; 2]%Z |}).

Definition xAff : AffObjective :=
  {| _vars := [LVariable x]; _terms := [[LVariable x]]; _shape := (2, 1) |}.
Definition yAff : AffObjective :=
  {| _vars := [LVariable y]; _terms := [[LVariable y]]; _shape := (2, 1) |}.
Definition constAff : AffObjective :=
  {| _vars := [A]; _terms := [[A]]; _shape := (2, 2) |}.

(** A 2 x 2 variable, whose shape multiplies with that of [y]. *)
Definition X : VariableObj :=
  {| var_id := "X"; var_size := (2, 2); var_interface := DENSE_TARGET |}.
Definition XAff : AffObjective :=
  {| _vars := [LVariable X]; _terms := [[LVariable X]]; _shape := (2, 2) |}.

Definition coeffs (a : Raises AffObjective) : option (gmap SlotId ZMat) :=
  match a with
  | Return a => coefficients unit_coefficients a DENSE_TARGET
  | Raise _ => None
  end.
End AffFixtures.

(** Three constants on binary64 matrices: 1e16, -1e16 and 1, and the
    expressions [big] and [minus_big + one]. *)
Module RoundingFixtures.
Import FloatInterface PrimFloat Aff.

Definition big : Leaf (NI:=float_interface) :=
  LConstant (NI:=float_interface) "big" (λ _, fcolumn [1e16%float]).
Definition minus_big : Leaf (NI:=float_interface) :=
  LConstant (NI:=float_interface) "minus_big" (λ _, fcolumn [(-1e16)%float]).
Definition one : Leaf (NI:=float_interface) :=
  LConstant (NI:=float_interface) "one" (λ _, fcolumn [1%float]).

Definition bigAff : AffObjective (NI:=float_interface) :=
  {| _vars := [big]; _terms := [[big]]; _shape := (1, 1) |}.
Definition restAff : AffObjective (NI:=float_interface) :=
  {| _vars := [minus_big; one]; _terms := [[minus_big]; [one]];
     _shape := (1, 1) |}.

(** The two blocks a sum of the three constants can come to. *)
Definition block_one : FMat := fcolumn [1%float].
Definition block_zero : FMat := fcolumn [0%float].

(** No variable is involved. *)
Definition no_variables (_ : VariableObj) (_ : Target) : gmap SlotId FMat := ∅.
End RoundingFixtures.

(** Small problems on integer matrices. *)
Module ProbFixtures.
Import Prob ZInterface.

Definition x : VariableObj :=
  {| var_id := "x"; var_size := (2, 1); var_interface := DENSE_TARGET |}.
Definition t : VariableObj :=
  {| var_id := "t"; var_size := (1, 1); var_interface := DENSE_TARGET |}.

(** An affine object of the given size over the given variables, every
    slot of which has the coefficient block [blk]. *)
Definition aff (sz : nat * nat) (vars : list VariableObj) (blk : list Z)
  : AffObj :=
  {| aff_size := sz;
     aff_variables := vars;
     aff_coefficients _ :=
       list_to_map ((λ s, (s, column blk)) <$> variable_ids vars) |}.

Definition con (oid : nat) (a : AffObj) : AffConstr :=
  {| con_id := oid; con_aff := a; con_interface := DENSE_TARGET |}.

(** Two equality constraints with the same contents, two objects. *)
Definition e1 : AffConstr := con 1 (aff (2, 1) [x] [1; 1]%Z).
Definition e2 : AffConstr := con 2 (aff (2, 1) [x] [1; 1]%Z).
(** An inequality, and a cone of size 3 that formats to two
    inequalities. *)
Definition i1 : AffConstr := con 3 (aff (2, 1) [x] [1; 0]%Z).
Definition f1 : AffConstr := con 5 (aff (1, 1) [t] [-1]%Z).
Definition f2 : AffConstr := con 6 (aff (2, 1) [x] [-1; 0]%Z).
Definition s1 : SOCConstr :=
  {| soc_id := 4; soc_size := 3; soc_format := [f1; f2] |}.

(** A list of references: [e1] comes twice, [e2] has the contents of
    [e1], and one object is of no known class. *)
Definition refs : list Constraint :=
  [AffEqConstraint e1; AffEqConstraint e2; OtherObject 9;
   AffLeqConstraint i1; AffEqConstraint e1; SOC s1].

Definition objective_t (dcp : bool) : ObjectiveObj :=
  {| obj_is_dcp := dcp;
     obj_canonical_form :=
       (aff (1, 1) [t] [1]%Z, [AffLeqConstraint i1; SOC s1]);
     obj_value v := v |}.

Definition constraint_e (dcp : bool) : ConstraintExpr :=
  {| tc_is_dcp := dcp;
     tc_canonical_form :=
       (None, [AffEqConstraint e1; OtherObject 9; AffEqConstraint e1]) |}.

Definition problem (dcp : bool) (target : Target) : Problem :=
  {| objective := objective_t dcp;
     constraints := [constraint_e true];
     interface := target |}.

(** A problem whose one constraint canonicalizes to [e1] and [e2]. *)
Definition problem_twins : Problem :=
  {| objective :=
       {| obj_is_dcp := true;
          obj_canonical_form := (aff (1, 1) [t] [1]%Z, []);
          obj_value v := v |};
     constraints :=
       [ {| tc_is_dcp := true;
            tc_canonical_form :=
              (None, [AffEqConstraint e1; AffEqConstraint e2]) |} ];
     interface := SPARSE_TARGET |}.

(** Backends that answer the same vectors whatever they are given, and
    report success or failure as they are told. *)
Definition fixed_backends (ok : bool) : Backends := {|
  conelp _ _ _ _ _ _ :=
    {| conelp_status := if ok then "optimal" else "primal infeasible";
       conelp_primal_objective := 7%Z;
       conelp_x := column [1; 2; 3]%Z;
       conelp_y := column [4; 5]%Z;
       conelp_z := column [6; 7; 8; 9; 10]%Z |};
  ecos _ _ _ _ _ _ :=
    {| ecos_exitFlag := if ok then 0%Z else 1%Z;
       ecos_infostring := if ok then "Optimal solution found"
                          else "Primal infeasible";
       ecos_pcost := 7%Z;
       ecos_x := column [1; 2; 3]%Z;
       ecos_y := column [4; 5]%Z;
       ecos_z := column [6; 7; 8; 9; 10]%Z |};
|}.

(** A solve method that prints its name and returns as a status whether
    it was given the keyword 'method'. *)
Definition admm : SolveMethod :=
  λ self args kwargs store,
    (["admm"],
     Returned store
       (StatusString (if kwargs !! "method" is Some _ then "method given"
                      else "no method given"))).

(** A problem without any constraint. *)
Definition problem_free (target : Target) : Problem :=
  {| objective :=
       {| obj_is_dcp := true;
          obj_canonical_form := (aff (1, 1) [t] [1]%Z, []);
          obj_value v := v |};
     constraints := [];
     interface := target |}.

(** The objects of [refs] in another order, each once. *)
Definition refs_shuffled : list Constraint :=
  [SOC s1; AffEqConstraint e2; AffLeqConstraint i1; OtherObject 9;
   AffEqConstraint e1].

(** A second variable object with the id of [x] and another size. *)
Definition x3 : VariableObj :=
  {| var_id := "x"; var_size := (3, 1); var_interface := DENSE_TARGET |}.

(** The expression of [i1] with a block under the constant slot added. *)
Definition with_offset (a : AffObj) (blk : list Z) : AffObj :=
  {| aff_size := aff_size a;
     aff_variables := aff_variables a;
     aff_coefficients intf := <[CONSTANT := column blk]> (aff_coefficients a intf) |}.

(** Stores: the values of [t] and [x] cut out of the vector 1, 2, 3, and
    the store a solve of [problem] leaves when an object 77 had a value
    before. *)
Definition saved : gmap ObjRef Value :=
  {[ VarRef "t" := Scalar 1%Z; VarRef "x" := Matrix (column [2; 3]%Z) ]}.

Definition solved_store : gmap ObjRef Value :=
  {[ VarRef "t" := Scalar 1%Z;
     VarRef "x" := Matrix (column [2; 3]%Z);
     ConRef 1 := Matrix (column [4; 5]%Z);
     ConRef 3 := Matrix (column [6; 7]%Z);
     ConRef 5 := Scalar 8%Z;
     ConRef 6 := Matrix (column [9; 10]%Z);
     ConRef 77 := Scalar 0%Z ]}.

(** A second inequality on [x], with another block, and a problem whose
    objective canonicalizes to the two inequalities [i1] and [i2]. *)
Definition i2 : AffConstr := con 7 (aff (2, 1) [x] [0; 1]%Z).

Definition problem_two_rows : Problem :=
  {| objective :=
       {| obj_is_dcp := true;
          obj_canonical_form :=
            (aff (1, 1) [t] [1]%Z, [AffLeqConstraint i1; AffLeqConstraint i2]);
          obj_value v := v |};
     constraints := [];
     interface := SPARSE_TARGET |}.

(** An equality constraint of size 1 x 1, a problem that canonicalizes to
    it, and backends that report success and answer one primal entry and
    no dual entry. *)
Definition e3 : AffConstr := con 8 (aff (1, 1) [t] [1]%Z).

Definition problem_scalar_eq : Problem :=
  {| objective :=
       {| obj_is_dcp := true;
          obj_canonical_form := (aff (1, 1) [t] [1]%Z, [AffEqConstraint e3]);
          obj_value v := v |};
     constraints := [];
     interface := SPARSE_TARGET |}.

Definition terse_backends : Backends := {|
  conelp _ _ _ _ _ _ :=
    {| conelp_status := "optimal";
       conelp_primal_objective := 7%Z;
       conelp_x := column [1]%Z;
       conelp_y := column [];
       conelp_z := column [] |};
  ecos _ _ _ _ _ _ :=
    {| ecos_exitFlag := 0%Z;
       ecos_infostring := "Optimal solution found";
       ecos_pcost := 7%Z;
       ecos_x := column [1]%Z;
       ecos_y := column [];
       ecos_z := column [] |};
|}.
End ProbFixtures.

(* ================================================================= *)
(** * Part II: theorems *)
(* ================================================================= *)

(* ----------------------------------------------------------------- *)
(** ** The insertion-order iteration is a lawful set iteration *)

Module InsertionOrderFacts.
Import Prob InsertionOrder.

Section Laws.
Context `{NI : NumericInterface}.

Lemma dedup_sub seen l c : c ∈ dedup seen l → c ∈ l.
Proof.
  revert seen. induction l as [|d l IH]; intros seen; simpl; [done|].
  case_decide.
  - intros ?%IH. by right.
  - intros [->|?%IH]%elem_of_cons; [left | by right].
Qed.

Lemma dedup_fresh seen l c : c ∈ dedup seen l → object_id c ∉ seen.
Proof.
  revert seen. induction l as [|d l IH]; intros seen; simpl.
  - by intros ?%elem_of_nil.
  - case_decide as Hd; [by apply IH|].
    intros [->|Hc%IH]%elem_of_cons; [done|].
    intros ?. apply Hc. by right.
Qed.

Lemma dedup_NoDup seen l : NoDup (object_id <$> dedup seen l).
Proof.
  revert seen. induction l as [|d l IH]; intros seen; simpl.
  - constructor.
  - case_decide; [apply IH|].
    rewrite fmap_cons. constructor; [|apply IH].
    intros (c & Hid & Hc%dedup_fresh)%list_elem_of_fmap.
    apply Hc. rewrite Hid. by left.
Qed.

Lemma dedup_sup seen l c :
  c ∈ l → object_id c ∈ seen ∨ object_id c ∈ object_id <$> dedup seen l.
Proof.
  revert seen. induction l as [|d l IH]; intros seen; simpl.
  - by intros ?%elem_of_nil.
  - intros [->|Hc]%elem_of_cons.
    + case_decide; [by left|]. right. rewrite fmap_cons. by left.
    + case_decide.
      * by apply IH.
      * destruct (IH (object_id d :: seen) Hc) as [[->|?]%elem_of_cons|?].
        -- right. rewrite fmap_cons. by left.
        -- by left.
        -- right. rewrite fmap_cons. by right.
Qed.

Lemma dedup_nil_sup l c :
  c ∈ l → object_id c ∈ object_id <$> dedup [] l.
Proof.
  intros Hc. by destruct (dedup_sup [] l c Hc) as [?%elem_of_nil|?].
Qed.

#[export] Instance insertion_order : SetIteration := {|
  list_set := dedup [];
  list_set_NoDup := dedup_NoDup [];
  list_set_sub := dedup_sub [];
  list_set_sup := dedup_nil_sup;
|}.

Lemma reversed_NoDup l : NoDup (object_id <$> reversed l).
Proof.
  unfold reversed. rewrite fmap_reverse, reverse_Permutation.
  apply dedup_NoDup.
Qed.

Lemma reversed_sub l c : c ∈ reversed l → c ∈ l.
Proof. unfold reversed. rewrite elem_of_reverse. apply dedup_sub. Qed.

Lemma reversed_sup l c : c ∈ l → object_id c ∈ object_id <$> reversed l.
Proof.
  unfold reversed. rewrite fmap_reverse, elem_of_reverse. apply dedup_nil_sup.
Qed.

(** The reversed iteration is as lawful as the insertion order. *)
Definition reverse_order : SetIteration := {|
  list_set := reversed;
  list_set_NoDup := reversed_NoDup;
  list_set_sub := reversed_sub;
  list_set_sup := reversed_sup;
|}.
End Laws.
End InsertionOrderFacts.

(* ----------------------------------------------------------------- *)
(** ** norm_inf_canon *)

Module NormInfFacts.
Import NormInf.

(** C1: on a canonicalized argument [x], the rewrite draws one identifier
    from the counter for the variable [t], which it builds with the shape
    of the atom; it promotes [t] (and not [x]) to the shape of [x]; and it
    returns [t] with the two constraints [x <= promote t] and
    [x + promote t >= 0], in that order, and nothing else. *)
Theorem norm_inf_canon_epigraph {Expr Constr} `{!ExpressionAPI Expr Constr}
    (expr x : Expr) (rest : list Expr) (next_id : nat) :
  let t := mk_Variable (shape expr) next_id in
  let promoted_t := promote t (shape x) in
  norm_inf_canon expr (x :: rest) next_id
    = (Return (t, [le x promoted_t; ge (add x promoted_t) 0]), S next_id)
  ∧ shape t = shape expr.
Proof.
  intros t promoted_t. split.
  - reflexivity.
  - apply shape_mk_Variable.
Qed.

(** Without an argument the lookup [args[0]] raises and no identifier is
    drawn. *)
Lemma norm_inf_canon_no_argument {Expr Constr} `{!ExpressionAPI Expr Constr}
    (expr : Expr) (next_id : nat) :
  norm_inf_canon expr [] next_id = (IndexError, next_id).
Proof. reflexivity. Qed.

(** On syntax trees: when every identifier of the argument is below the
    counter, the new variable does not occur in the argument. *)
Lemma norm_inf_canon_fresh (expr x : SynExpr) (rest : list SynExpr) (n : nat) :
  Forall (λ i, i < n) (syn_var_ids x) →
  ∃ s cs, norm_inf_canon expr (x :: rest) n = (Return (SVariable s n, cs), S n)
          ∧ n ∉ syn_var_ids x.
Proof.
  intros Hx. eexists _, _. split; [reflexivity|].
  intros Hn. rewrite Forall_forall in Hx. specialize (Hx _ Hn). lia.
Qed.

(** The rewrite of a scalar infinity norm of a 3 x 2 leaf. *)
Example norm_inf_canon_leaf :
  norm_inf_canon (SNormInf (SLeaf "x" [3; 2]) []) [SLeaf "x" [3; 2]] 7
  = (Return (SVariable [] 7,
             [SLe (SLeaf "x" [3; 2]) (SPromote (SVariable [] 7) [3; 2]);
              SGe (SAdd (SLeaf "x" [3; 2]) (SPromote (SVariable [] 7) [3; 2])) 0]),
     8).
Proof. reflexivity. Qed.

End NormInfFacts.

(* ----------------------------------------------------------------- *)
(** ** The affine term algebra *)

Module AffFacts.
Import Aff.

Section Algebra.
Context `{NI : NumericInterface}.

Lemma add_equal_shape (a b : AffObjective) :
  _shape a = _shape b →
  add a b = Return {| _vars := _vars a ++ _vars b;
                      _terms := _terms a ++ _terms b;
                      _shape := _shape a |}.
Proof. intros Hs. unfold add. by rewrite decide_True. Qed.

Lemma add_unequal_shape (a b : AffObjective) :
  _shape a ≠ _shape b → add a b = Raise IncompatibleDimensions.
Proof. intros Hs. unfold add. by rewrite decide_False. Qed.

(** C4, as the code has it: the product of two variable-bearing
    expressions always raises; the error is the dimension error of the
    sums when the shapes do not multiply, and the non-affine error when
    they do. *)
Theorem mul_variable_bearing_raises
    (shape_mul : Shape → Shape → option Shape) (a b : AffObjective) :
  has_variable a = true →
  has_variable b = true →
  mul shape_mul a b
    = Raise (if shape_mul (_shape a) (_shape b) is Some _
             then NonAffineError else IncompatibleDimensions).
Proof.
  intros Ha Hb. unfold mul.
  destruct (shape_mul (_shape a) (_shape b)); [|done].
  by rewrite Ha, Hb.
Qed.

Section Coefficients.
Variable Variable_coefficients : VariableObj → Target → gmap SlotId Mat.

Local Abbreviation accumulate := (@accumulate NI).
Local Abbreviation coefficients_from :=
  (coefficients_from Variable_coefficients).
Local Abbreviation coefficients := (coefficients Variable_coefficients).

Lemma accumulate_lookup (m1 m2 : gmap SlotId Mat) (i : SlotId) :
  accumulate m1 m2 !! i
    = match m1 !! i, m2 !! i with
      | Some u, Some v => Some (mat_add u v)
      | Some u, None => Some u
      | None, Some v => Some v
      | None, None => None
      end.
Proof.
  unfold accumulate. rewrite lookup_union_with.
  by destruct (m1 !! i), (m2 !! i).
Qed.

Lemma accumulate_assoc (m1 m2 m3 : gmap SlotId Mat) :
  Assoc (=) mat_add →
  accumulate m1 (accumulate m2 m3) = accumulate (accumulate m1 m2) m3.
Proof.
  intros mat_add_assoc.
  apply map_eq. intros i. rewrite !accumulate_lookup.
  destruct (m1 !! i), (m2 !! i), (m3 !! i); try done.
  by rewrite mat_add_assoc.
Qed.

Lemma accumulate_empty_l (m : gmap SlotId Mat) : accumulate ∅ m = m.
Proof.
  apply map_eq. intros i. rewrite accumulate_lookup, lookup_empty.
  by destruct (m !! i).
Qed.

Lemma accumulate_empty_r (m : gmap SlotId Mat) : accumulate m ∅ = m.
Proof.
  apply map_eq. intros i. rewrite accumulate_lookup, lookup_empty.
  by destruct (m !! i).
Qed.

(** Accumulating from [acc] is accumulating from the empty map and
    adding the result to [acc], when the blocks add associatively. *)
Lemma coefficients_from_acc acc terms interface :
  Assoc (=) mat_add →
  coefficients_from acc terms interface
    = accumulate acc <$> coefficients_from ∅ terms interface.
Proof.
  intros mat_add_assoc.
  revert acc. induction terms as [|t terms IH]; intros acc; simpl.
  - by rewrite accumulate_empty_r.
  - destruct (term_coefficients _ t interface) as [c|]; simpl; [|done].
    rewrite (IH (accumulate acc c)), (IH (accumulate ∅ c)).
    rewrite accumulate_empty_l.
    destruct (coefficients_from ∅ terms interface) as [m|]; simpl; [|done].
    by rewrite accumulate_assoc.
Qed.

(** The same for at most one term, whatever the addition of blocks. *)
Lemma coefficients_from_acc_short acc terms interface :
  length terms ≤ 1 →
  coefficients_from acc terms interface
    = accumulate acc <$> coefficients_from ∅ terms interface.
Proof.
  destruct terms as [|t [|t' terms]]; simpl; [|intros _|lia].
  - by rewrite accumulate_empty_r.
  - destruct (term_coefficients _ t interface) as [c|]; simpl; [|done].
    by rewrite accumulate_empty_l.
Qed.

Lemma coefficients_from_app acc ts1 ts2 interface :
  coefficients_from acc (ts1 ++ ts2) interface
    = coefficients_from acc ts1 interface
        ≫= λ acc', coefficients_from acc' ts2 interface.
Proof.
  revert acc. induction ts1 as [|t ts1 IH]; intros acc; simpl; [done|].
  destruct (term_coefficients _ t interface) as [c|]; simpl; [|done].
  apply IH.
Qed.

(** C5, as amended: for two expressions of equal shape the sum is
    defined; when the blocks of the interface add associatively, or when
    the right-hand operand has at most one term, the coefficient map of
    the sum is the slot-wise sum of the coefficient maps of the operands:
    a slot that both have carries the sum of the two blocks, a slot that
    one has carries that block, and there are no other slots. *)
Theorem coefficients_add (a b : AffObjective) (interface : Target) :
  _shape a = _shape b →
  Assoc (=) mat_add ∨ length (_terms b) ≤ 1 →
  ∃ s, add a b = Return s
       ∧ coefficients s interface
           = (ca ← coefficients a interface;
              cb ← coefficients b interface;
              Some (accumulate ca cb))
       ∧ ∀ ca cb, coefficients a interface = Some ca →
                  coefficients b interface = Some cb →
           ∃ cs, coefficients s interface = Some cs
                 ∧ dom cs = dom ca ∪ dom cb
                 ∧ ∀ i, cs !! i
                     = match ca !! i, cb !! i with
                       | Some u, Some v => Some (mat_add u v)
                       | Some u, None => Some u
                       | None, Some v => Some v
                       | None, None => None
                       end.
Proof.
  intros Hs Hexact. eexists. split; [by apply add_equal_shape|].
  assert (coefficients
            {| _vars := _vars a ++ _vars b;
               _terms := _terms a ++ _terms b;
               _shape := _shape a |} interface
          = (ca ← coefficients a interface;
             cb ← coefficients b interface;
             Some (accumulate ca cb))) as Heq.
  { unfold Aff.coefficients. simpl. rewrite coefficients_from_app.
    destruct (coefficients_from ∅ (_terms a) interface) as [ca|];
      simpl; [|done].
    destruct Hexact as [Hassoc|Hshort].
    - rewrite coefficients_from_acc by done.
      by destruct (coefficients_from ∅ (_terms b) interface).
    - rewrite coefficients_from_acc_short by done.
      by destruct (coefficients_from ∅ (_terms b) interface). }
  split; [done|].
  intros ca cb Ha Hb. rewrite Heq, Ha, Hb. simpl.
  eexists. split; [done|]. split.
  - apply set_eq. intros i.
    rewrite elem_of_union, !elem_of_dom, accumulate_lookup.
    unfold is_Some. destruct (ca !! i), (cb !! i); split; eauto.
    by intros [[? [=]]|[? [=]]].
  - intros i. apply accumulate_lookup.
Qed.
End Coefficients.
End Algebra.

Import ZInterface AffFixtures.

(** [test_add]: the terms and the variables of a sum, and the failure of
    a sum of unequal shapes. *)
Example test_add :
  add xAff yAff
    = Return {| _vars := [LVariable x; LVariable y];
                _terms := [[LVariable x]; [LVariable y]];
                _shape := (2, 1) |}
  ∧ add xAff constAff = Raise (Exception "Incompatible dimensions.").
Proof. split; reflexivity. Qed.

(** [test_mul]: the chain of a product and its variables. *)
Example test_mul :
  mul matmul_shape constAff xAff
    = Return {| _vars := [LVariable x];
                _terms := [[LVariable x; A]];
                _shape := (2, 1) |}.
Proof. reflexivity. Qed.

(** [test_coefficients]: a sum with different keys, a sum with the same
    keys, and a product. *)
Example test_coefficients :
  dom <$> coeffs (add xAff yAff)
    = Some {[ IndexId "x" 0 0; IndexId "x" 1 0;
              IndexId "y" 0 0; IndexId "y" 1 0 ]}
  ∧ (coeffs (add xAff xAff) ≫= λ m, m !! IndexId "x" 0 0)
      = Some (column [2; 0]%Z)
  ∧ (coeffs (mul matmul_shape constAff yAff) ≫= λ m, m !! IndexId "y" 0 0)
      = Some (column [1; 2]%Z).
Proof. repeat split; vm_compute; reflexivity. Qed.
End AffFacts.

(* ----------------------------------------------------------------- *)
(** ** problem.py: partitioning and canonicalization *)

Module ProbFacts.
Import Prob.

Lemma foldl_app_concat {A B} (f : B → list A) (init : list A) (l : list B) :
  foldl (λ acc b, acc ++ f b) init l = init ++ concat (f <$> l).
Proof.
  revert init. induction l as [|b l IH]; intros init; simpl.
  - by rewrite app_nil_r.
  - by rewrite IH, <- app_assoc.
Qed.

Section Partition.
Context `{NI : NumericInterface} `{SI : !SetIteration}.

Lemma filter_constraints_unfold cs :
  filter_constraints cs
    = (omap sel_eq (list_set cs), omap sel_ineq (list_set cs),
       omap sel_soc (list_set cs)).
Proof. reflexivity. Qed.

Lemma elem_of_eq_bucket cs a :
  a ∈ (filter_constraints cs).1.1 ↔ AffEqConstraint a ∈ list_set cs.
Proof.
  rewrite filter_constraints_unfold. simpl. rewrite list_elem_of_omap. split.
  - intros ([] & Hc & [= <-]). done.
  - intros Hc. by exists (AffEqConstraint a).
Qed.

Lemma elem_of_ineq_bucket cs a :
  a ∈ (filter_constraints cs).1.2 ↔ AffLeqConstraint a ∈ list_set cs.
Proof.
  rewrite filter_constraints_unfold. simpl. rewrite list_elem_of_omap. split.
  - intros ([] & Hc & [= <-]). done.
  - intros Hc. by exists (AffLeqConstraint a).
Qed.

Lemma elem_of_soc_bucket cs s :
  s ∈ (filter_constraints cs).2 ↔ SOC s ∈ list_set cs.
Proof.
  rewrite filter_constraints_unfold. simpl. rewrite list_elem_of_omap. split.
  - intros ([] & Hc & [= <-]). done.
  - intros Hc. by exists (SOC s).
Qed.

(** A selection that keeps identities keeps them distinct. *)
Lemma NoDup_omap_ids {B} (f : Constraint → option B) (idB : B → nat)
    (l : list Constraint) :
  (∀ c b, f c = Some b → idB b = object_id c) →
  NoDup (object_id <$> l) → NoDup (idB <$> omap f l).
Proof.
  intros Hf. induction l as [|c l IH]; simpl; [constructor|].
  rewrite NoDup_cons. intros [Hc Hl].
  destruct (f c) as [b|] eqn:Hb; simpl; [|by apply IH].
  constructor; [|by apply IH].
  intros (b' & Hid & (c' & Hc' & Hb')%list_elem_of_omap)%list_elem_of_fmap.
  apply Hc. apply list_elem_of_fmap. exists c'. split; [|done].
  by rewrite <- (Hf _ _ Hb), <- (Hf _ _ Hb').
Qed.

(** Under consistent identities the iteration holds exactly the objects
    of the list. *)
Lemma elem_of_list_set cs c :
  identities_consistent cs → c ∈ list_set cs ↔ c ∈ cs.
Proof.
  intros Hcs. split; [apply list_set_sub|].
  intros Hc.
  pose proof (list_set_sup cs c Hc) as (c' & Hid & Hc')%list_elem_of_fmap.
  by rewrite (Hcs c c' Hc (list_set_sub _ _ Hc') Hid).
Qed.

(** The buckets hold a rearrangement of the recognized objects of the
    iteration. *)
Lemma bucket_objects_Permutation cs :
  bucket_objects (filter_constraints cs)
    ≡ₚ filter (λ c, is_recognized c = true) (list_set cs).
Proof.
  rewrite filter_constraints_unfold. unfold bucket_objects. simpl.
  induction (list_set cs) as [|c l IH]; [done|].
  destruct c as [a|a|s|oid]; simpl.
  - rewrite filter_cons_True by done. by rewrite IH.
  - rewrite filter_cons_True by done. rewrite <- IH.
    by rewrite <- Permutation_middle.
  - rewrite filter_cons_True by done. rewrite <- IH.
    rewrite (app_assoc _ _ (SOC s :: _)).
    rewrite <- Permutation_middle. by rewrite <- app_assoc.
  - rewrite filter_cons_False by done. exact IH.
Qed.

(** C3, as the code has it: over a consistent list of references, each
    bucket holds every object of its class that is in the list, each
    once, and nothing else; the comparison is the identity of the
    objects and never their contents. *)
Theorem filter_constraints_identity_dedup (cs : list Constraint) :
  identities_consistent cs →
  NoDup (con_id <$> (filter_constraints cs).1.1)
  ∧ NoDup (con_id <$> (filter_constraints cs).1.2)
  ∧ NoDup (soc_id <$> (filter_constraints cs).2)
  ∧ (∀ a, a ∈ (filter_constraints cs).1.1 ↔ AffEqConstraint a ∈ cs)
  ∧ (∀ a, a ∈ (filter_constraints cs).1.2 ↔ AffLeqConstraint a ∈ cs)
  ∧ (∀ s, s ∈ (filter_constraints cs).2 ↔ SOC s ∈ cs).
Proof.
  intros Hcs. repeat split.
  - rewrite filter_constraints_unfold. simpl.
    apply NoDup_omap_ids; [|apply list_set_NoDup].
    by intros [] ? [= <-].
  - rewrite filter_constraints_unfold. simpl.
    apply NoDup_omap_ids; [|apply list_set_NoDup].
    by intros [] ? [= <-].
  - rewrite filter_constraints_unfold. simpl.
    apply NoDup_omap_ids; [|apply list_set_NoDup].
    by intros [] ? [= <-].
  - by rewrite elem_of_eq_bucket, elem_of_list_set.
  - by rewrite <- (elem_of_list_set cs), <- elem_of_eq_bucket.
  - by rewrite elem_of_ineq_bucket, elem_of_list_set.
  - by rewrite <- (elem_of_list_set cs), <- elem_of_ineq_bucket.
  - by rewrite elem_of_soc_bucket, elem_of_list_set.
  - by rewrite <- (elem_of_list_set cs), <- elem_of_soc_bucket.
Qed.

(** C10: an object of the list that is of none of the three classes is
    still there after the duplicates are removed, and is in none of the
    three buckets: the buckets hold the recognized objects of the
    iteration, and nothing is raised or reported ([filter_constraints] is
    a total function without output). *)
Theorem filter_constraints_omits_unrecognized (cs : list Constraint)
    (c : Constraint) :
  c ∈ cs →
  is_recognized c = false →
  object_id c ∈ object_id <$> list_set cs
  ∧ (c ∉ bucket_objects (filter_constraints cs))
  ∧ (bucket_objects (filter_constraints cs)
       ≡ₚ filter (λ c, is_recognized c = true) (list_set cs)).
Proof.
  intros Hin Hc. split; [by apply list_set_sup|].
  split; [|apply bucket_objects_Permutation].
  rewrite bucket_objects_Permutation, list_elem_of_filter.
  intros [Hr _]. congruence.
Qed.

(** [canonicalize] without its loops. *)
Lemma canonicalize_unfold (self : Problem) :
  let combined :=
    (obj_canonical_form (objective self)).2
    ++ concat ((λ c, (tc_canonical_form c).2) <$> constraints self) in
  let buckets := filter_constraints combined in
  canonicalize self
    = ((obj_canonical_form (objective self)).1,
       buckets.1.1,
       buckets.1.2 ++ concat (soc_format <$> buckets.2),
       {| dims_l :=
            sum_list ((λ c, (aff_size (con_aff c)).1 * (aff_size (con_aff c)).2)
                      <$> buckets.1.2);
          dims_q := soc_size <$> buckets.2;
          dims_s := [] |}).
Proof.
  intros combined buckets. unfold canonicalize.
  destruct (obj_canonical_form (objective self)) as [obj cs0] eqn:Hobj.
  rewrite (foldl_app_concat (λ c, (tc_canonical_form c).2)).
  subst combined buckets. simpl.
  by rewrite (foldl_app_concat soc_format).
Qed.

(** C2: the linear cone size is the number of entries of the inequality
    bucket as [filter_constraints] returns it, before any cone is
    formatted; the inequality list of the canonical program is that
    bucket followed by the formatted cones in the order of the cone
    bucket; 'q' lists the cone sizes in that same order; 's' is empty. *)
Theorem canonicalize_dims (self : Problem) :
  let combined :=
    (obj_canonical_form (objective self)).2
    ++ concat ((λ c, (tc_canonical_form c).2) <$> constraints self) in
  let buckets := filter_constraints combined in
  let ineq_constr := (canonicalize self).1.2 in
  let dims := (canonicalize self).2 in
  dims_l dims
    = sum_list ((λ c, (aff_size (con_aff c)).1 * (aff_size (con_aff c)).2)
                <$> buckets.1.2)
  ∧ ineq_constr = buckets.1.2 ++ concat (soc_format <$> buckets.2)
  ∧ dims_q dims = soc_size <$> buckets.2
  ∧ dims_s dims = []
  ∧ (canonicalize self).1.1.1 = (obj_canonical_form (objective self)).1
  ∧ (canonicalize self).1.1.2 = buckets.1.1.
Proof.
  intros combined buckets ineq_constr dims. subst ineq_constr dims.
  rewrite canonicalize_unfold. fold combined buckets. simpl.
  repeat split.
Qed.
End Partition.
End ProbFacts.

(* ----------------------------------------------------------------- *)
(** ** problem.py: variable enumeration *)

Module VariableFacts.
Import Prob.

(** A list sorted by an antisymmetric order and free of duplicates is
    strictly sorted. *)
Lemma StronglySorted_strict {A} (R : relation A) `{!AntiSymm (=) R} (l : list A) :
  StronglySorted R l → NoDup l → StronglySorted (strict R) l.
Proof.
  induction 1 as [|x l Hl IH Hx]; intros Hnd; [constructor|].
  apply NoDup_cons in Hnd as [Hxl Hnd].
  constructor; [by apply IH|].
  rewrite Forall_forall in Hx |- *. intros y Hy. split; [by apply Hx|].
  intros Hyx. apply Hxl.
  by rewrite (anti_symm R x y (Hx y Hy) Hyx).
Qed.

Section Dict.
Lemma dict_from_Some d0 vars k v :
  dict_from d0 vars !! k = Some v →
  (v ∈ vars ∧ var_id v = k) ∨ d0 !! k = Some v.
Proof.
  revert d0. induction vars as [|w vars IH]; intros d0; simpl; [by right|].
  intros [[Hv Hk]|Hd]%IH.
  - left. split; [by right|done].
  - apply lookup_insert_Some in Hd as [[<- <-]|[_ Hd]].
    + left. split; [by left|done].
    + by right.
Qed.

Lemma dict_from_is_Some d0 vars k :
  k ∈ var_id <$> vars ∨ is_Some (d0 !! k) → is_Some (dict_from d0 vars !! k).
Proof.
  revert d0. induction vars as [|w vars IH]; intros d0; simpl.
  - intros [?%elem_of_nil|?]; done.
  - rewrite elem_of_cons. intros Hk. apply IH.
    destruct (decide (var_id w = k)) as [<-|Hne].
    + right. rewrite lookup_insert_eq. eauto.
    + rewrite lookup_insert_ne by done.
      destruct Hk as [[Hk|Hk]|Hk]; [congruence|by left|by right].
Qed.

(** When one id names one variable, the dictionary maps an id to the
    variable of the list that has it. *)
Lemma dict_lookup vars k v :
  (∀ v1 v2, v1 ∈ vars → v2 ∈ vars → var_id v1 = var_id v2 → v1 = v2) →
  dict_from ∅ vars !! k = Some v ↔ v ∈ vars ∧ var_id v = k.
Proof.
  intros Hcons. split.
  - intros [?|Hd]%dict_from_Some; [done|]. by rewrite lookup_empty in Hd.
  - intros [Hv <-].
    destruct (dict_from_is_Some ∅ vars (var_id v)) as [w Hw].
    { left. by apply list_elem_of_fmap_2. }
    rewrite Hw. f_equal.
    apply dict_from_Some in Hw as [[Hw Hid]|Hw].
    + by apply Hcons.
    + by rewrite lookup_empty in Hw.
Qed.

Lemma dict_Permutation vars vars' :
  (∀ v1 v2, v1 ∈ vars → v2 ∈ vars → var_id v1 = var_id v2 → v1 = v2) →
  vars ≡ₚ vars' → dict_from ∅ vars = dict_from ∅ vars'.
Proof.
  intros Hcons Hp. apply map_eq. intros k. apply option_eq. intros v.
  rewrite !dict_lookup; [by rewrite Hp|by setoid_rewrite <- Hp|done].
Qed.
End Dict.

Section Variables.
Context `{NI : NumericInterface}.

Lemma collected_Permutation objective cs cs' :
  cs ≡ₚ cs' → collected objective cs ≡ₚ collected objective cs'.
Proof.
  intros Hp. unfold collected. f_equiv.
  induction Hp; simpl; [done| by f_equiv | |by etrans].
  rewrite !app_assoc. f_equiv. apply Permutation_app_comm.
Qed.

Lemma variables_unfold objective cs :
  variables objective cs
    = omap (λ k, dict_from ∅ (collected objective cs) !! k)
           (sorted_keys (dict_from ∅ (collected objective cs))).
Proof.
  unfold variables, collected.
  by rewrite (ProbFacts.foldl_app_concat (λ c, aff_variables (con_aff c))).
Qed.

Lemma sorted_keys_elem_of (d : gmap string VariableObj) k :
  k ∈ sorted_keys d ↔ is_Some (d !! k).
Proof.
  unfold sorted_keys. rewrite merge_sort_Permutation, list_elem_of_fmap.
  split.
  - intros ([k' v] & -> & Hkv%elem_of_map_to_list). simpl. eauto.
  - intros [v Hv]. exists (k, v). split; [done|].
    by apply elem_of_map_to_list.
Qed.

Lemma sorted_keys_NoDup (d : gmap string VariableObj) :
  NoDup (sorted_keys d).
Proof.
  unfold sorted_keys. rewrite merge_sort_Permutation.
  apply NoDup_fst_map_to_list.
Qed.

Lemma sorted_keys_strict (d : gmap string VariableObj) :
  StronglySorted (strict String.le) (sorted_keys d).
Proof.
  apply StronglySorted_strict; [apply _| |].
  - apply StronglySorted_merge_sort; apply _.
  - apply sorted_keys_NoDup.
Qed.

(** Looking up keys that the dictionary files under themselves gives
    back variables with these ids. *)
Lemma omap_lookup_ids (d : gmap string VariableObj) (ks : list string) :
  (∀ k v, d !! k = Some v → var_id v = k) →
  (∀ k, k ∈ ks → is_Some (d !! k)) →
  var_id <$> omap (λ k, d !! k) ks = ks.
Proof.
  intros Hd. induction ks as [|k ks IH]; intros Hks; [done|]. simpl.
  destruct (Hks k) as [v Hv]; [by left|]. rewrite Hv. simpl.
  rewrite (Hd _ _ Hv). f_equal. apply IH. intros k' Hk'. apply Hks. by right.
Qed.

Lemma dict_files_under_id vars k v :
  dict_from ∅ vars !! k = Some v → var_id v = k.
Proof.
  intros [[_ ?]|Hd]%dict_from_Some; [done|]. by rewrite lookup_empty in Hd.
Qed.

Lemma variables_ids objective cs :
  var_id <$> variables objective cs
    = sorted_keys (dict_from ∅ (collected objective cs)).
Proof.
  rewrite variables_unfold. apply omap_lookup_ids.
  - apply dict_files_under_id.
  - intros k. by rewrite sorted_keys_elem_of.
Qed.

Lemma variables_NoDup objective cs :
  NoDup (var_id <$> variables objective cs).
Proof. rewrite variables_ids. apply sorted_keys_NoDup. Qed.

Lemma elem_of_variables objective cs v :
  v ∈ variables objective cs
  ↔ dict_from ∅ (collected objective cs) !! var_id v = Some v.
Proof.
  rewrite variables_unfold, list_elem_of_omap. split.
  - intros (k & _ & Hk). by rewrite (dict_files_under_id _ _ _ Hk).
  - intros Hv. exists (var_id v). split; [|done].
    rewrite sorted_keys_elem_of. eauto.
Qed.

Lemma variable_ids_cons v vs :
  variable_ids (v :: vs) = slots v ++ variable_ids vs.
Proof. reflexivity. Qed.

Lemma variable_ids_app vs1 vs2 :
  variable_ids (vs1 ++ vs2) = variable_ids vs1 ++ variable_ids vs2.
Proof. unfold variable_ids. apply bind_app. Qed.

Lemma column_major_bound (r c row col : nat) :
  row < r → col < c → col * r + row < r * c.
Proof.
  intros Hrow Hcol.
  assert (S col * r ≤ c * r) by (apply Nat.mul_le_mono_r; lia). lia.
Qed.

Lemma bind_seq_length {A} (g : nat → list A) (r c : nat) :
  (∀ j, length (g j) = r) → length (seq 0 c ≫= g) = c * r.
Proof.
  intros Hg. induction c as [|c IH]; [done|].
  rewrite seq_S, bind_app, length_app, IH. simpl.
  rewrite app_nil_r, Hg. lia.
Qed.

Lemma bind_seq_lookup {A} (g : nat → list A) (r c col row : nat) :
  (∀ j, length (g j) = r) → col < c → row < r →
  (seq 0 c ≫= g) !! (col * r + row) = g col !! row.
Proof.
  intros Hg. induction c as [|c IH]; intros Hcol Hrow; [lia|].
  rewrite seq_S, bind_app. simpl. rewrite app_nil_r.
  destruct (decide (col = c)) as [->|Hne].
  - rewrite lookup_app_r; rewrite (bind_seq_length g r c Hg); [|lia].
    f_equal. lia.
  - rewrite lookup_app_l; [apply IH; lia|].
    rewrite (bind_seq_length g r c Hg). nia.
Qed.

Lemma slots_length v : length (slots v) = (var_size v).1 * (var_size v).2.
Proof.
  unfold slots. rewrite (bind_seq_length _ (var_size v).1).
  - lia.
  - intros j. rewrite (bind_seq_length _ 1); [lia|done].
Qed.

Lemma slots_lookup v row col :
  row < (var_size v).1 → col < (var_size v).2 →
  slots v !! (col * (var_size v).1 + row) = Some (index_id v row col).
Proof.
  intros Hrow Hcol. unfold slots.
  rewrite (bind_seq_lookup _ (var_size v).1); [|  |done|done].
  - replace row with (row * 1 + 0) at 1 by lia.
    by rewrite (bind_seq_lookup _ 1); [| |done|lia].
  - intros j. rewrite (bind_seq_length _ 1); [lia|done].
Qed.

Lemma variable_ids_length vs :
  length (variable_ids vs) = sum_list (entries_of <$> vs).
Proof.
  induction vs as [|v vs IH]; [done|].
  rewrite variable_ids_cons, length_app, slots_length, IH. done.
Qed.

Lemma variable_ids_lookup vs i v row col :
  vs !! i = Some v →
  row < (var_size v).1 → col < (var_size v).2 →
  variable_ids vs
    !! (sum_list (entries_of <$> take i vs) + (col * (var_size v).1 + row))
  = Some (index_id v row col).
Proof.
  revert i. induction vs as [|w vs IH]; intros i Hi Hrow Hcol; [done|].
  rewrite variable_ids_cons. destruct i as [|i]; simpl in *.
  - simplify_eq. rewrite lookup_app_l; [by apply slots_lookup|].
    rewrite slots_length. by apply column_major_bound.
  - rewrite lookup_app_r; rewrite slots_length; [|unfold entries_of; lia].
    rewrite <- (IH i Hi Hrow Hcol). f_equal. unfold entries_of.
    match goal with
    | |- ?a + ?s + ?k - ?a = _ => by replace (a + s + k - a) with (s + k) by lia
    end.
Qed.

(** When one id names one variable, the enumeration does not depend on
    the order in which the constraints are visited. *)
Lemma variables_Permutation (objective : AffObj) (cs cs' : list AffConstr) :
  (∀ v1 v2, v1 ∈ collected objective cs → v2 ∈ collected objective cs →
            var_id v1 = var_id v2 → v1 = v2) →
  cs ≡ₚ cs' →
  variables objective cs' = variables objective cs.
Proof.
  intros Hcons Hp. rewrite !variables_unfold.
  by rewrite (dict_Permutation _ _ Hcons (collected_Permutation _ _ _ Hp)).
Qed.

(** And it holds exactly the variables gathered. *)
Lemma variables_collected (objective : AffObj) (cs : list AffConstr) v :
  (∀ v1 v2, v1 ∈ collected objective cs → v2 ∈ collected objective cs →
            var_id v1 = var_id v2 → v1 = v2) →
  v ∈ variables objective cs ↔ v ∈ collected objective cs.
Proof.
  intros Hcons. rewrite elem_of_variables, (dict_lookup _ _ _ Hcons).
  split; [by intros [? _]|by intros ?].
Qed.
End Variables.
End VariableFacts.

(* ----------------------------------------------------------------- *)
(** ** problem.py: the solve pipeline *)

Module SolveFacts.
Import Prob.

Section SaveValues.
Context `{NI : NumericInterface} {A : Type} `{!Saveable A}.

(** An object that is not in the list keeps the value it had. *)
Lemma save_values_from_other vec (objs : list A) off st st' r :
  save_values_from vec objs off st = Some st' →
  r ∉ obj_ref <$> objs → st' !! r = st !! r.
Proof.
  revert off st. induction objs as [|o objs IH]; intros off st; simpl.
  - by intros [= <-].
  - destruct (block_value vec off o) as [v|]; simpl; [|done].
    intros Hs Hr. apply not_elem_of_cons in Hr as [Hne Hr].
    rewrite (IH _ _ Hs Hr). by rewrite lookup_insert_ne.
Qed.

(** Every object of the list has a value afterwards. *)
Lemma save_values_from_written vec (objs : list A) off st st' o :
  save_values_from vec objs off st = Some st' →
  o ∈ objs → is_Some (st' !! obj_ref o).
Proof.
  revert off st o. induction objs as [|o' objs IH]; intros off st o; simpl.
  - by intros _ ?%elem_of_nil.
  - destruct (block_value vec off o') as [v|]; simpl; [|done].
    intros Hs [->|Ho]%elem_of_cons; [|by eapply IH].
    destruct (decide (obj_ref o' ∈ obj_ref <$> objs)) as [Hin|Hnin].
    + apply list_elem_of_fmap in Hin as (o'' & Heq & Ho'').
      rewrite Heq. by eapply IH.
    + rewrite (save_values_from_other _ _ _ _ _ _ Hs Hnin).
      rewrite lookup_insert_eq. eauto.
Qed.

(** When the objects are distinct, each has the value of its block. *)
Lemma save_values_from_lookup vec (objs : list A) off st st' i o :
  save_values_from vec objs off st = Some st' →
  NoDup (obj_ref <$> objs) →
  objs !! i = Some o →
  st' !! obj_ref o = block_value vec (off + offset_of objs i) o
  ∧ is_Some (block_value vec (off + offset_of objs i) o).
Proof.
  revert off st i. induction objs as [|o' objs IH]; intros off st i; simpl.
  - done.
  - destruct (block_value vec off o') as [v|] eqn:Hv; simpl; [|done].
    intros Hs [Hnin Hnd]%NoDup_cons Hi. destruct i as [|i]; simpl in Hi.
    + simplify_eq. unfold offset_of. simpl. rewrite Nat.add_0_r, Hv.
      rewrite (save_values_from_other _ _ _ _ _ _ Hs Hnin).
      rewrite lookup_insert_eq. eauto.
    + destruct (IH _ _ _ Hs Hnd Hi) as [Hl Hb].
      unfold offset_of in *. rewrite firstn_cons, fmap_cons. simpl.
      by rewrite Nat.add_assoc.
Qed.

(** A result vector that is long enough is saved without a failure. *)
Lemma save_values_from_succeeds vec (objs : list A) off st :
  (∀ i, i < off + sum_list (obj_entries <$> objs) →
        is_Some (mat_getitem vec i)) →
  is_Some (save_values_from vec objs off st).
Proof.
  revert off st. induction objs as [|o objs IH]; intros off st Hvec;
    simpl; [eauto|].
  rewrite fmap_cons in Hvec. cbn [sum_list sum_list_with id] in Hvec.
  assert (is_Some (block_value vec off o)) as [v Hv].
  { unfold block_value. unfold obj_entries in Hvec at 1.
    destruct (obj_size o) as [rows cols]. cbn [fst snd] in Hvec.
    case_decide as Hsz; [|eauto]. simplify_eq.
    destruct (Hvec off) as [n Hn]; [lia|]. rewrite Hn. simpl. eauto. }
  rewrite Hv. simpl. apply IH.
  intros i Hi. apply Hvec. lia.
Qed.

(** A value that is there stays there. *)
Lemma save_values_from_is_Some vec (objs : list A) off st st' r :
  save_values_from vec objs off st = Some st' →
  is_Some (st !! r) → is_Some (st' !! r).
Proof.
  intros Hs Hr. destruct (decide (r ∈ obj_ref <$> objs)) as [Hin|Hnin].
  - apply list_elem_of_fmap in Hin as (o & -> & Ho).
    by eapply save_values_from_written.
  - by rewrite (save_values_from_other _ _ _ _ _ _ Hs Hnin).
Qed.

Lemma offset_of_0 (objs : list A) : offset_of objs 0 = 0.
Proof. by destruct objs. Qed.

Lemma offset_of_S (o : A) (objs : list A) i :
  offset_of (o :: objs) (S i) = obj_entries o + offset_of objs i.
Proof. reflexivity. Qed.

(** The block of an object is missing only for a 1 x 1 object whose
    entry the vector does not have. *)
Lemma block_value_None vec off (o : A) :
  block_value vec off o = None
  ↔ obj_size o = (1, 1) ∧ mat_getitem vec off = None.
Proof.
  unfold block_value. destruct (obj_size o) as [rows cols].
  case_decide as Hsz.
  - rewrite fmap_None. split; [by intros ?|by intros [_ ?]].
  - split; [done|]. by intros [? _].
Qed.

(** [save_values] raises exactly when such an object is in the list. *)
Lemma save_values_from_None vec (objs : list A) off st :
  save_values_from vec objs off st = None
  ↔ ∃ i o, objs !! i = Some o
           ∧ obj_size o = (1, 1)
           ∧ mat_getitem vec (off + offset_of objs i) = None.
Proof.
  revert off st. induction objs as [|o' objs IH]; intros off st; simpl.
  - split; [done|]. by intros (i & o & Hi & _).
  - destruct (block_value vec off o') as [v|] eqn:Hv; simpl.
    + rewrite IH. split.
      * intros (i & o & Hi & Hsz & Hget). exists (S i), o.
        split; [done|]. split; [done|].
        by rewrite offset_of_S, Nat.add_assoc.
      * intros (i & o & Hi & Hsz & Hget). destruct i as [|i].
        -- simpl in Hi. simplify_eq.
           rewrite offset_of_0, Nat.add_0_r in Hget.
           assert (block_value vec off o = None) as Hnone
             by (by apply block_value_None).
           congruence.
        -- exists i, o. split; [done|]. split; [done|].
           by rewrite offset_of_S, Nat.add_assoc in Hget.
    + split; [intros _|done].
      apply block_value_None in Hv as [Hsz Hget]. exists 0, o'.
      split; [done|]. split; [done|].
      by rewrite offset_of_0, Nat.add_0_r.
Qed.

Lemma save_values_None vec (objs : list A) st :
  save_values vec objs st = None ↔ entry_missing vec objs.
Proof. unfold save_values, entry_missing. by rewrite save_values_from_None. Qed.

(** The effect of a call that returns is the store it returns; a call
    that raises is flagged. *)
Lemma save_values_effect_Some vec (objs : list A) off st st' :
  save_values_from vec objs off st = Some st' →
  save_values_effect vec objs off st = (st', true).
Proof.
  revert off st. induction objs as [|o objs IH]; intros off st; simpl.
  - by intros [= <-].
  - destruct (block_value vec off o) as [v|]; simpl; [apply IH|done].
Qed.

Lemma save_values_effect_None vec (objs : list A) off st :
  save_values_from vec objs off st = None →
  (save_values_effect vec objs off st).2 = false.
Proof.
  revert off st. induction objs as [|o objs IH]; intros off st; simpl.
  - done.
  - destruct (block_value vec off o) as [v|]; simpl; [apply IH|done].
Qed.

(** However it ends, a call leaves the objects that are not in its list
    as they were. *)
Lemma save_values_effect_other vec (objs : list A) off st r :
  r ∉ obj_ref <$> objs →
  (save_values_effect vec objs off st).1 !! r = st !! r.
Proof.
  revert off st. induction objs as [|o objs IH]; intros off st; simpl.
  - done.
  - intros [Hne Hr]%not_elem_of_cons.
    destruct (block_value vec off o) as [v|]; simpl; [|done].
    rewrite (IH _ _ Hr). by rewrite lookup_insert_ne.
Qed.

(** The offset of an object and its entries lie within the entries of
    the list. *)
Lemma offset_of_bound (objs : list A) i o :
  objs !! i = Some o →
  offset_of objs i + obj_entries o ≤ sum_list (obj_entries <$> objs).
Proof.
  revert i. induction objs as [|o' objs IH]; intros i Hi; [done|].
  rewrite fmap_cons. cbn [sum_list sum_list_with id].
  destruct i as [|i]; simpl in Hi.
  - simplify_eq. rewrite offset_of_0. lia.
  - rewrite offset_of_S. specialize (IH i Hi). lia.
Qed.

(** A vector that has all the entries of the list misses none. *)
Lemma fits_not_missing vec (objs : list A) :
  (∀ i, i < sum_list (obj_entries <$> objs) → is_Some (mat_getitem vec i)) →
  ¬ entry_missing vec objs.
Proof.
  intros Hfits (i & o & Hi & Hsz & Hget).
  pose proof (offset_of_bound objs i o Hi) as Hb.
  unfold obj_entries in Hb at 1. rewrite Hsz in Hb. cbn [fst snd] in Hb.
  destruct (Hfits (offset_of objs i)) as [n Hn]; [lia|]. congruence.
Qed.
End SaveValues.

Section Solve.
Context `{NI : NumericInterface} `{SI : !SetIteration} `{BE : !Backends}.

Lemma solve_unfold (self : Problem) (store : gmap ObjRef Value) :
  _solve self store
    = (if negb (is_dcp self) then dcp_message else [],
       conclude self (backend_outcome self (assemble self).2)
                (assemble self).1.1.1 (assemble self).1.1.2
                (assemble self).1.2 store).
Proof.
  unfold _solve.
  by destruct (assemble self) as [[[vars eq_constr] ineq_constr] m].
Qed.

Lemma assemble_unfold (self : Problem) :
  let cp := canonicalize self in
  let var_ids :=
    variable_ids (variables cp.1.1.1 (cp.1.1.2 ++ cp.1.2)) in
  assemble self
    = (variables cp.1.1.1 (cp.1.1.2 ++ cp.1.2), cp.1.1.2, cp.1.2,
       {| asm_c := mat_T (constraints_matrix [cp.1.1.1] var_ids DENSE_TARGET);
          asm_G := constraints_matrix (con_aff <$> cp.1.2) var_ids
                                      (interface self);
          asm_h := mat_neg (constraints_matrix (con_aff <$> cp.1.2)
                                               [CONSTANT] DENSE_TARGET);
          asm_A := constraints_matrix (con_aff <$> cp.1.1.2) var_ids
                                      (interface self);
          asm_b := mat_neg (constraints_matrix (con_aff <$> cp.1.1.2)
                                               [CONSTANT] DENSE_TARGET);
          asm_dims := cp.2 |}).
Proof.
  unfold assemble.
  by destruct (canonicalize self) as [[[obj eq_constr] ineq_constr] dims].
Qed.

Lemma targets_cvxopt_spec (self : Problem) (m : Assembled) :
  targets_cvxopt self m = true
  ↔ dims_s (asm_dims m) ≠ []
    ∨ (mat_size (asm_G m)).1 = 0 ∨ (mat_size (asm_G m)).2 = 0
    ∨ interface self = DENSE_TARGET.
Proof.
  unfold targets_cvxopt.
  rewrite !orb_true_iff, Nat.ltb_lt, Nat.eqb_eq, bool_decide_eq_true.
  destruct (dims_s (asm_dims m)) as [|n ns]; simpl.
  - split.
    + intros [[?|Hmin]|?]; [lia| |by auto].
      destruct (Nat.min_spec (mat_size (asm_G m)).1 (mat_size (asm_G m)).2)
        as [[_ Heq]|[_ Heq]]; rewrite Heq in Hmin; auto.
    + intros [?|[HG|[HG|?]]]; [done| | |by auto];
        left; right; rewrite HG; lia.
  - split; [by left|]. intros _. left. left. lia.
Qed.

(** The SDP bucket of an assembled problem is empty. *)
Lemma assemble_dims_s (self : Problem) :
  dims_s (asm_dims (assemble self).2) = [].
Proof.
  rewrite assemble_unfold. simpl.
  by rewrite (ProbFacts.canonicalize_unfold self).
Qed.

(** C7: with the matrices c, G, h, A, b and the cone dimensions as they
    are assembled, the solve calls [conelp] on them when the SDP list is
    non-empty, or G has a zero dimension, or the interface of the
    problem is the dense one; in every other case it calls [ecos] on
    the same matrices; what the solve returns is computed from the
    answer of the backend called. *)
Theorem solve_routing (self : Problem) (store : gmap ObjRef Value) :
  let cp := canonicalize self in
  let var_ids := variable_ids (variables cp.1.1.1 (cp.1.1.2 ++ cp.1.2)) in
  let c := mat_T (constraints_matrix [cp.1.1.1] var_ids DENSE_TARGET) in
  let G := constraints_matrix (con_aff <$> cp.1.2) var_ids (interface self) in
  let h := mat_neg (constraints_matrix (con_aff <$> cp.1.2)
                                       [CONSTANT] DENSE_TARGET) in
  let A := constraints_matrix (con_aff <$> cp.1.1.2) var_ids
                              (interface self) in
  let b := mat_neg (constraints_matrix (con_aff <$> cp.1.1.2)
                                       [CONSTANT] DENSE_TARGET) in
  let dims := cp.2 in
  let to_cvxopt :=
    dims_s dims ≠ [] ∨ (mat_size G).1 = 0 ∨ (mat_size G).2 = 0
    ∨ interface self = DENSE_TARGET in
  let vars := variables cp.1.1.1 (cp.1.1.2 ++ cp.1.2) in
  (to_cvxopt →
     (_solve self store).2
       = conclude self (conelp_outcome (conelp c G h A b dims))
                  vars cp.1.1.2 cp.1.2 store)
  ∧ (¬ to_cvxopt →
     (_solve self store).2
       = conclude self (ecos_outcome (ecos c G h dims A b))
                  vars cp.1.1.2 cp.1.2 store).
Proof.
  intros cp var_ids c G h A b dims to_cvxopt vars.
  rewrite solve_unfold. cbn [snd].
  pose proof (targets_cvxopt_spec self (assemble self).2) as Hspec.
  unfold backend_outcome. revert Hspec.
  rewrite (assemble_unfold self). cbn [fst snd asm_c asm_G asm_h asm_A asm_b asm_dims].
  fold cp var_ids c G h A b dims vars to_cvxopt. intros Hspec.
  split; intros Hto.
  - apply Hspec in Hto. by rewrite Hto.
  - destruct (targets_cvxopt self _) eqn:Ht; [|done].
    exfalso. apply Hto. by apply Hspec.
Qed.

Lemma write_back_Some out vars eq_constr ineq_constr store st' :
  write_back out vars eq_constr ineq_constr store = Some st' ↔
  ∃ st1 st2, save_values (results_x out) vars store = Some st1
             ∧ save_values (results_y out) eq_constr st1 = Some st2
             ∧ save_values (results_z out) ineq_constr st2 = Some st'.
Proof.
  unfold write_back. split.
  - destruct (save_values (results_x out) vars store) as [st1|] eqn:H1;
      [|done].
    simpl.
    destruct (save_values (results_y out) eq_constr st1) as [st2|] eqn:H2;
      [|done].
    simpl. intros H3. by exists st1, st2.
  - intros (st1 & st2 & -> & H2 & H3). simpl. by rewrite H2.
Qed.

Lemma VarRef_not_ConRef (v : VariableObj) (cs : list AffConstr) :
  VarRef (var_id v) ∉ (obj_ref <$> cs).
Proof. by intros (c & [=] & _)%list_elem_of_fmap. Qed.

Lemma store_after_unfold (self : Problem) (store : gmap ObjRef Value) :
  store_after self store
    = if solved (backend_outcome self (assemble self).2) then
        (write_back_effect (backend_outcome self (assemble self).2)
           (assemble self).1.1.1 (assemble self).1.1.2 (assemble self).1.2
           store).1
      else store.
Proof.
  unfold store_after.
  by destruct (assemble self) as [[[vars eq_constr] ineq_constr] m].
Qed.

Lemma write_back_None out vars eq_constr ineq_constr store :
  write_back out vars eq_constr ineq_constr store = None
  ↔ entry_missing (results_x out) vars
    ∨ entry_missing (results_y out) eq_constr
    ∨ entry_missing (results_z out) ineq_constr.
Proof.
  unfold write_back.
  destruct (save_values (results_x out) vars store) as [st1|] eqn:H1; simpl.
  - assert (¬ entry_missing (results_x out) vars) as Hx
      by (rewrite <- (save_values_None _ _ store); congruence).
    destruct (save_values (results_y out) eq_constr st1) as [st2|] eqn:H2;
      simpl.
    + assert (¬ entry_missing (results_y out) eq_constr) as Hy
        by (rewrite <- (save_values_None _ _ st1); congruence).
      rewrite save_values_None. tauto.
    + apply save_values_None in H2. tauto.
  - apply save_values_None in H1. tauto.
Qed.

(** A write-back that returns has the effect of its three calls. *)
Lemma write_back_effect_Some out vars eq_constr ineq_constr store st' :
  write_back out vars eq_constr ineq_constr store = Some st' →
  write_back_effect out vars eq_constr ineq_constr store = (st', true).
Proof.
  intros (st1 & st2 & H1 & H2 & H3)%write_back_Some.
  unfold write_back_effect.
  rewrite (save_values_effect_Some _ _ _ _ _ H1).
  rewrite (save_values_effect_Some _ _ _ _ _ H2).
  apply (save_values_effect_Some _ _ _ _ _ H3).
Qed.

(** Whatever happens to the duals, the primal values that were written
    stay written. *)
Lemma write_back_effect_primal out vars eq_constr ineq_constr store st1
    (v : VariableObj) :
  save_values (results_x out) vars store = Some st1 →
  (write_back_effect out vars eq_constr ineq_constr store).1
    !! VarRef (var_id v) = st1 !! VarRef (var_id v).
Proof.
  intros H1. unfold write_back_effect.
  rewrite (save_values_effect_Some _ _ _ _ _ H1).
  destruct (save_values_effect (results_y out) eq_constr 0 st1)
    as [st2 returned] eqn:H2.
  assert (st2 !! VarRef (var_id v) = st1 !! VarRef (var_id v)) as Hst2.
  { change st2 with (st2, returned).1. rewrite <- H2.
    apply save_values_effect_other, VarRef_not_ConRef. }
  destruct returned; cbn [fst]; [|done].
  rewrite <- Hst2. apply save_values_effect_other, VarRef_not_ConRef.
Qed.

Lemma variables_NoDup_refs (self : Problem) :
  NoDup (obj_ref <$> (assemble self).1.1.1).
Proof.
  rewrite assemble_unfold. cbn [fst].
  rewrite (list_fmap_compose var_id VarRef).
  apply NoDup_fmap_2; [by intros ?? [=]|].
  apply VariableFacts.variables_NoDup.
Qed.

Lemma NoDup_constraint_refs (cs : list AffConstr) :
  NoDup (con_id <$> cs) → NoDup (obj_ref <$> cs).
Proof.
  intros Hnd. change (obj_ref <$> cs) with ((ConRef ∘ con_id) <$> cs).
  rewrite list_fmap_compose. apply NoDup_fmap_2; [by intros ?? [=]|done].
Qed.

(** The three ways in which the end of [_solve] goes, for any answer of
    a backend. *)
Lemma conclude_states (self : Problem) (out : Outcome)
    (vars : list VariableObj) (eq_constr ineq_constr : list AffConstr)
    (store : gmap ObjRef Value) :
  NoDup (obj_ref <$> vars) →
  let missing :=
    entry_missing (results_x out) vars
    ∨ entry_missing (results_y out) eq_constr
    ∨ entry_missing (results_z out) ineq_constr in
  let left_behind :=
    if solved out then
      (write_back_effect out vars eq_constr ineq_constr store).1
    else store in
  (solved out = false →
     conclude self out vars eq_constr ineq_constr store
       = Some (store, StatusString (status out))
     ∧ left_behind = store)
  ∧ (solved out = true → ¬ missing →
       ∃ st',
         conclude self out vars eq_constr ineq_constr store
           = Some (st', ObjectiveValue
                          (obj_value (objective self) (primal_val out)))
         ∧ left_behind = st'
         ∧ (∀ i v, vars !! i = Some v →
              st' !! VarRef (var_id v)
                = block_value (results_x out) (offset_of vars i) v
              ∧ is_Some (st' !! VarRef (var_id v)))
         ∧ (∀ c, c ∈ eq_constr ++ ineq_constr →
              is_Some (st' !! ConRef (con_id c)))
         ∧ (NoDup (con_id <$> eq_constr ++ ineq_constr) →
              (∀ i c, eq_constr !! i = Some c →
                 st' !! ConRef (con_id c)
                   = block_value (results_y out) (offset_of eq_constr i) c)
              ∧ (∀ i c, ineq_constr !! i = Some c →
                   st' !! ConRef (con_id c)
                     = block_value (results_z out)
                                   (offset_of ineq_constr i) c)))
  ∧ (solved out = true → missing →
       conclude self out vars eq_constr ineq_constr store = None
       ∧ (¬ entry_missing (results_x out) vars →
          ∀ i v, vars !! i = Some v →
            left_behind !! VarRef (var_id v)
              = block_value (results_x out) (offset_of vars i) v
            ∧ is_Some (left_behind !! VarRef (var_id v)))).
Proof.
  intros Hndv missing left_behind. subst missing left_behind.
  unfold conclude.
  split; [by intros ->|]. split.
  - intros -> Hfine.
    destruct (write_back out vars eq_constr ineq_constr store) as [st|] eqn:Hwb;
      [|apply write_back_None in Hwb; contradiction].
    exists st. simpl. split; [done|].
    split; [by rewrite (write_back_effect_Some _ _ _ _ _ _ Hwb)|].
    apply write_back_Some in Hwb as (st1 & st2 & H1 & H2 & H3).
    split; [|split].
    + intros i v Hv.
      destruct (save_values_from_lookup _ _ _ _ _ _ _ H1 Hndv Hv) as [Hl Hb].
      rewrite (save_values_from_other _ _ _ _ _ _ H3 (VarRef_not_ConRef v _)).
      rewrite (save_values_from_other _ _ _ _ _ _ H2 (VarRef_not_ConRef v _)).
      change (obj_ref v) with (VarRef (var_id v)) in Hl.
      split; [exact Hl|]. by rewrite Hl.
    + intros c [Hc|Hc]%elem_of_app.
      * eapply save_values_from_is_Some; [exact H3|].
        apply (save_values_from_written _ _ _ _ _ _ H2 Hc).
      * apply (save_values_from_written _ _ _ _ _ _ H3 Hc).
    + intros Hnd. rewrite fmap_app in Hnd.
      apply NoDup_app in Hnd as (Hnde & Hdisj & Hndi). split.
      * intros i c Hc.
        destruct (save_values_from_lookup _ _ _ _ _ _ _ H2
                    (NoDup_constraint_refs _ Hnde) Hc) as [Hl _].
        assert (obj_ref c ∉ obj_ref <$> ineq_constr) as Hout.
        { intros (c' & [= Hid] & Hc')%list_elem_of_fmap.
          apply (Hdisj (con_id c)).
          - apply list_elem_of_fmap_2. by eapply list_elem_of_lookup_2.
          - rewrite Hid. by apply list_elem_of_fmap_2. }
        pose proof (save_values_from_other _ _ _ _ _ _ H3 Hout) as Hsame.
        change (obj_ref c) with (ConRef (con_id c)) in Hl, Hsame.
        by rewrite Hsame.
      * intros i c Hc.
        by destruct (save_values_from_lookup _ _ _ _ _ _ _ H3
                       (NoDup_constraint_refs _ Hndi) Hc) as [Hl _].
  - intros -> Hmiss. split.
    + apply (write_back_None _ _ _ _ store) in Hmiss. by rewrite Hmiss.
    + intros Hx i v Hv.
      destruct (save_values (results_x out) vars store) as [st1|] eqn:H1;
        [|by apply save_values_None in H1].
      rewrite (write_back_effect_primal _ _ _ _ _ _ _ H1).
      destruct (save_values_from_lookup _ _ _ _ _ _ _ H1 Hndv Hv) as [Hl Hb].
      change (obj_ref v) with (VarRef (var_id v)) in Hl.
      split; [exact Hl|]. by rewrite Hl.
Qed.


Lemma canonicalize_same_but_dcp (p p' : Problem) :
  same_but_dcp p p' → canonicalize p = canonicalize p'.
Proof.
  intros (Hobj & _ & _ & Hcs).
  assert (∀ q : Problem,
            (λ c, (tc_canonical_form c).2) <$> constraints q
            = snd <$> (tc_canonical_form <$> constraints q)) as Hsnd.
  { intros q. by rewrite <- list_fmap_compose. }
  rewrite !ProbFacts.canonicalize_unfold. by rewrite Hobj, !Hsnd, Hcs.
Qed.

Lemma is_dcp_false (p : Problem) :
  is_dcp p = false
  ↔ obj_is_dcp (objective p) = false
    ∨ ∃ e, e ∈ constraints p ∧ tc_is_dcp e = false.
Proof.
  unfold is_dcp. rewrite andb_false_iff.
  assert (forallb tc_is_dcp (constraints p) = false
          ↔ ∃ e, e ∈ constraints p ∧ tc_is_dcp e = false) as ->; [|tauto].
  induction (constraints p) as [|e es IH]; simpl.
  - split; [done|]. by intros (e & ?%elem_of_nil & _).
  - rewrite andb_false_iff, IH. split.
    + intros [He|(e' & He' & Hd)].
      * exists e. split; [by left|done].
      * exists e'. split; [by right|done].
    + intros (e' & [->|He']%elem_of_cons & Hd); [by left|].
      right. by exists e'.
Qed.

(** C9: whatever [is_dcp()] answers, [_solve] canonicalizes the
    problem, assembles c, G, h, A, b and the cone dimensions, calls
    [conelp] or [ecos] on them as the routing test says, and ends on the
    answer of that backend.  The answers of [is_dcp()] (false as soon as
    the objective or one constraint answers false) decide only whether
    the one diagnostic line is printed; nothing is raised for them: the
    only exception is the index of a 1 x 1 object past the end of a
    result vector of a backend that reported success.  Two problems that
    differ at most in these answers are canonicalized and assembled to
    the same matrices and end with the same store and the same returned
    value. *)
Theorem dcp_check_is_advisory (p p' : Problem) (store : gmap ObjRef Value) :
  let cp := canonicalize p in
  let vars := variables cp.1.1.1 (cp.1.1.2 ++ cp.1.2) in
  let var_ids := variable_ids vars in
  let c := mat_T (constraints_matrix [cp.1.1.1] var_ids DENSE_TARGET) in
  let G := constraints_matrix (con_aff <$> cp.1.2) var_ids (interface p) in
  let h := mat_neg (constraints_matrix (con_aff <$> cp.1.2)
                                       [CONSTANT] DENSE_TARGET) in
  let A := constraints_matrix (con_aff <$> cp.1.1.2) var_ids (interface p) in
  let b := mat_neg (constraints_matrix (con_aff <$> cp.1.1.2)
                                       [CONSTANT] DENSE_TARGET) in
  let dims := cp.2 in
  let out :=
    if (0 <? length (dims_s dims))
       || (Nat.min (mat_size G).1 (mat_size G).2 =? 0)
       || bool_decide (interface p = DENSE_TARGET)
    then conelp_outcome (conelp c G h A b dims)
    else ecos_outcome (ecos c G h dims A b) in
  (is_dcp p = false
   ↔ obj_is_dcp (objective p) = false
     ∨ ∃ e, e ∈ constraints p ∧ tc_is_dcp e = false)
  ∧ _solve p store
      = (if is_dcp p then [] else ["Problem does not follow DCP rules."],
         conclude p out vars cp.1.1.2 cp.1.2 store)
  ∧ ((_solve p store).2 = None
     ↔ solved out = true
       ∧ (entry_missing (results_x out) vars
          ∨ entry_missing (results_y out) cp.1.1.2
          ∨ entry_missing (results_z out) cp.1.2))
  ∧ (same_but_dcp p p' →
       canonicalize p = canonicalize p'
       ∧ assemble p = assemble p'
       ∧ (_solve p store).2 = (_solve p' store).2).
Proof.
  intros cp vars var_ids c G h A b dims out.
  assert (_solve p store
          = (if is_dcp p then [] else ["Problem does not follow DCP rules."],
             conclude p out vars cp.1.1.2 cp.1.2 store)) as Hsolve.
  { rewrite solve_unfold. unfold backend_outcome, targets_cvxopt.
    rewrite (assemble_unfold p).
    cbn [fst snd asm_c asm_G asm_h asm_A asm_b asm_dims].
    by destruct (is_dcp p). }
  split; [apply is_dcp_false|]. split; [exact Hsolve|]. split.
  - rewrite Hsolve. cbn [snd]. unfold conclude.
    destruct (solved out).
    + rewrite <- (write_back_None out vars cp.1.1.2 cp.1.2 store).
      destruct (write_back out vars cp.1.1.2 cp.1.2 store); simpl;
        split; try done. by intros [_ ?].
    + split; [done|]. by intros [? _].
  - intros Hpp'. pose proof (canonicalize_same_but_dcp p p' Hpp') as Hc.
    destruct Hpp' as (Hobj & Hval & Hintf & Hcs).
    assert (assemble p = assemble p') as Ha.
    { rewrite !assemble_unfold. simpl. by rewrite Hc, Hintf. }
    split; [done|]. split; [done|].
    rewrite !solve_unfold. cbn [snd]. rewrite <- Ha.
    unfold backend_outcome, targets_cvxopt, conclude.
    by rewrite Hintf, Hval.
Qed.
End Solve.
End SolveFacts.

(* ----------------------------------------------------------------- *)
(** ** problem.py: what two runs of the assembly share *)

Module DeterminismFacts.
Import Prob ProbFacts VariableFacts SolveFacts.

Section TwoRuns.
Context `{NI : NumericInterface}.

(** Two iterations of the set of a consistent list hold the same
    objects, each once. *)
Lemma set_iterations_Permutation (SI SI' : SetIteration) (cs : list Constraint) :
  identities_consistent cs →
  list_set (SetIteration:=SI') cs ≡ₚ list_set (SetIteration:=SI) cs.
Proof.
  intros Hcs. apply NoDup_Permutation.
  - apply (NoDup_fmap_1 object_id), list_set_NoDup.
  - apply (NoDup_fmap_1 object_id), list_set_NoDup.
  - intros c. by rewrite !elem_of_list_set.
Qed.

Lemma concat_fmap_Permutation {A B} (f : A → list B) (l l' : list A) :
  l ≡ₚ l' → concat (f <$> l) ≡ₚ concat (f <$> l').
Proof.
  induction 1 as [|x l l' _ IH|x y l|l l' l'' _ IH _ IH']; simpl.
  - done.
  - by rewrite IH.
  - rewrite !app_assoc. f_equiv. apply Permutation_app_comm.
  - by etrans.
Qed.

End TwoRuns.
End DeterminismFacts.

(* ----------------------------------------------------------------- *)
(** ** The theorems at concrete inputs *)

Module Evaluation.
Import ZInterface InsertionOrderFacts.

Lemma z_add_assoc : Assoc (=) z_add.
Proof.
  intros [r1 c1 e1] [r2 c2 e2] [r3 c3 e3]. unfold z_add. simpl. f_equal.
  revert e2 e3. induction e1 as [|a e1 IH]; intros [|b e2] [|c e3]; simpl;
    try done.
  by rewrite IH, Z.add_assoc.
Qed.

Section AffineAlgebra.
Import Aff AffFacts AffFixtures.

(** C4 at [xAff * yAff], the product of [test_mul]: both operands bear a
    variable, and the product raises the exception of the sums of unequal
    shapes, with the message the test expects, and not the non-affine
    error. *)
Lemma product_raises_dimension_error :
  has_variable xAff = true
  ∧ has_variable yAff = true
  ∧ mul matmul_shape xAff yAff = Raise (Exception "Incompatible dimensions.")
  ∧ mul matmul_shape xAff yAff = add xAff constAff
  ∧ mul matmul_shape xAff yAff ≠ Raise NonAffineError.
Proof. repeat split; try reflexivity. discriminate. Qed.

Lemma mul_variable_bearing_raises_witness :
  mul matmul_shape XAff yAff = Raise NonAffineError
  ∧ mul matmul_shape xAff yAff = Raise IncompatibleDimensions.
Proof.
  split.
  - apply (mul_variable_bearing_raises matmul_shape XAff yAff); reflexivity.
  - apply (mul_variable_bearing_raises matmul_shape xAff yAff); reflexivity.
Defined.

Lemma coefficients_add_witness :
  ∃ s, add xAff xAff = Return s
       ∧ coefficients unit_coefficients s DENSE_TARGET
           = (ca ← coefficients unit_coefficients xAff DENSE_TARGET;
              cb ← coefficients unit_coefficients xAff DENSE_TARGET;
              Some (accumulate ca cb)).
Proof.
  destruct (coefficients_add (NI:=z_interface) unit_coefficients xAff xAff
              DENSE_TARGET eq_refl (or_introl z_add_assoc))
    as (s & Hs & Hc & _).
  exists s. split; [exact Hs|exact Hc].
Defined.
End AffineAlgebra.

Section Rounding.
Import Aff FloatInterface RoundingFixtures.

(** C5 on binary64 blocks, at [big + (minus_big + one)]: the two
    expressions have the same shape; the sum accumulates its three terms
    from the left, (1e16 - 1e16) + 1, and its constant block comes to 1;
    the coefficient maps of the operands hold 1e16 and -1e16 + 1, which
    is rounded to -1e16, and their slot-wise sum comes to 0. *)
Lemma sum_of_coefficients_rounds :
  _shape bigAff = _shape restAff
  ∧ ∃ s ca cb cs,
      add bigAff restAff = Return s
      ∧ coefficients (NI:=float_interface) no_variables bigAff DENSE_TARGET = Some ca
      ∧ coefficients (NI:=float_interface) no_variables restAff DENSE_TARGET = Some cb
      ∧ coefficients (NI:=float_interface) no_variables s DENSE_TARGET = Some cs
      ∧ cs !! CONSTANT = Some block_one
      ∧ accumulate (NI:=float_interface) ca cb !! CONSTANT = Some block_zero
      ∧ cs ≠ accumulate (NI:=float_interface) ca cb.
Proof.
  split; [reflexivity|].
  exists {| _vars := [big; minus_big; one];
            _terms := [[big]; [minus_big]; [one]];
            _shape := (1, 1) |},
         (default ∅ (coefficients (NI:=float_interface) no_variables bigAff DENSE_TARGET)),
         (default ∅ (coefficients (NI:=float_interface) no_variables restAff DENSE_TARGET)),
         (default ∅ (coefficients (NI:=float_interface) no_variables
                       {| _vars := [big; minus_big; one];
                          _terms := [[big]; [minus_big]; [one]];
                          _shape := (1, 1) |} DENSE_TARGET)).
  repeat split; try (vm_compute; reflexivity).
  intros Heq.
  apply (f_equal (λ m, match m !! CONSTANT with
                       | Some block =>
                           match fentries block with
                           | [entry] => PrimFloat.eqb entry PrimFloat.one
                           | _ => false
                           end
                       | None => false
                       end)) in Heq.
  vm_compute in Heq. discriminate Heq.
Qed.
End Rounding.

Section Problems.
Import Prob ProbFacts VariableFacts SolveFacts DeterminismFacts ProbFixtures.

Ltac elem_cases H :=
  repeat (apply elem_of_cons in H as [->|H]); [..|by apply elem_of_nil in H].

Lemma refs_consistent : identities_consistent refs.
Proof.
  intros c1 c2 H1 H2 Hid. unfold refs in *.
  elem_cases H1; elem_cases H2; first [reflexivity|discriminate Hid].
Qed.

(** C3 on two equality constraints with the same contents: they are two
    objects, both stay in the equality bucket, and the canonical program
    has both. *)
Lemma structurally_identical_pair_kept :
  structurally_identical (AffEqConstraint e1) (AffEqConstraint e2)
  ∧ object_id (AffEqConstraint e1) ≠ object_id (AffEqConstraint e2)
  ∧ filter_constraints [AffEqConstraint e1; AffEqConstraint e2]
      = ([e1; e2], [], [])
  ∧ (canonicalize problem_twins).1.1.2 = [e1; e2].
Proof. repeat split; try reflexivity. discriminate. Qed.

Lemma filter_constraints_identity_dedup_witness :
  identities_consistent refs
  ∧ filter_constraints refs = ([e1; e2], [i1], [s1])
  ∧ ∀ a, a ∈ (filter_constraints refs).1.1 ↔ AffEqConstraint a ∈ refs.
Proof.
  split; [exact refs_consistent|]. split; [reflexivity|].
  apply (filter_constraints_identity_dedup refs refs_consistent).
Defined.

Lemma filter_constraints_omits_unrecognized_witness :
  OtherObject 9 ∈ refs
  ∧ OtherObject 9 ∉ bucket_objects (filter_constraints refs).
Proof.
  assert (@OtherObject z_interface 9 ∈ refs) as Hin.
  { unfold refs. do 2 right. left. }
  split; [exact Hin|].
  apply (filter_constraints_omits_unrecognized refs (OtherObject 9) Hin eq_refl).
Defined.

(** The canonical program of the fixture: the linear size counts the
    two rows of the inequality and none of the three rows of the
    formatted cone. *)
Example canonicalize_fixture :
  canonicalize (problem true SPARSE_TARGET)
    = ((obj_canonical_form (objective_t true)).1, [e1], [i1; f1; f2],
       {| dims_l := 2; dims_q := [3]; dims_s := [] |}).
Proof. reflexivity. Qed.

Lemma two_rows_consistent :
  identities_consistent [AffLeqConstraint i1; AffLeqConstraint i2].
Proof.
  intros c1 c2 H1 H2 Hid.
  elem_cases H1; elem_cases H2; first [reflexivity|discriminate Hid].
Qed.

Lemma two_rows_variables_consistent :
  ∀ v1 v2, v1 ∈ collected (aff (1, 1) [t] [1%Z]) [i1; i2] →
           v2 ∈ collected (aff (1, 1) [t] [1%Z]) [i1; i2] →
           var_id v1 = var_id v2 → v1 = v2.
Proof.
  intros v1 v2 H1 H2 Hid. cbv [collected aff con i1 i2 fmap list_fmap concat
    aff_variables con_aff app] in H1, H2.
  elem_cases H1; elem_cases H2; first [reflexivity|discriminate Hid].
Qed.



(** Column major order on a 2 x 3 variable. *)
Example variable_ids_column_major :
  variable_ids [ {| var_id := "M"; var_size := (2, 3);
                    var_interface := DENSE_TARGET |} ]
    = [IndexId "M" 0 0; IndexId "M" 1 0; IndexId "M" 0 1;
       IndexId "M" 1 1; IndexId "M" 0 2; IndexId "M" 1 2].
Proof. reflexivity. Qed.

(** Ids are compared as strings: "var10" comes before "var2". *)
Example variables_sorted_as_strings :
  var_id <$> variables
    (aff (1, 1) [ {| var_id := "var2"; var_size := (1, 1);
                     var_interface := DENSE_TARGET |};
                  {| var_id := "var10"; var_size := (1, 1);
                     var_interface := DENSE_TARGET |} ] [1%Z]) []
    = ["var10"; "var2"].
Proof. reflexivity. Qed.

Lemma solve_routing_witness :
  (_solve (BE:=fixed_backends true) (problem true DENSE_TARGET) ∅).2
    = Some ({[ VarRef "t" := Scalar 1%Z;
               VarRef "x" := Matrix (column [2; 3]%Z);
               ConRef 1 := Matrix (column [4; 5]%Z);
               ConRef 3 := Matrix (column [6; 7]%Z);
               ConRef 5 := Scalar 8%Z;
               ConRef 6 := Matrix (column [9; 10]%Z) ]},
            ObjectiveValue 7%Z).
Proof.
  destruct (solve_routing (BE:=fixed_backends true)
              (problem true DENSE_TARGET) ∅) as [Hcvx _].
  rewrite Hcvx; [vm_compute; reflexivity|].
  right. right. right. reflexivity.
Defined.

(** On the sparse interface the same problem goes to [ecos]. *)
Example solve_sparse_goes_to_ecos :
  (_solve (BE:=fixed_backends false) (problem true SPARSE_TARGET) ∅)
    = ([], Some (∅, StatusString "Primal infeasible")).
Proof. vm_compute. reflexivity. Qed.

Example solve_dense_goes_to_conelp :
  (_solve (BE:=fixed_backends false) (problem true DENSE_TARGET) ∅)
    = ([], Some (∅, StatusString "primal infeasible")).
Proof. vm_compute. reflexivity. Qed.



Lemma dcp_check_is_advisory_witness :
  same_but_dcp (problem false SPARSE_TARGET) (problem true SPARSE_TARGET)
  ∧ is_dcp (problem false SPARSE_TARGET) = false
  ∧ (_solve (BE:=fixed_backends true) (problem false SPARSE_TARGET) ∅).1
      = dcp_message
  ∧ (_solve (BE:=fixed_backends true) (problem false SPARSE_TARGET) ∅).2
      = (_solve (BE:=fixed_backends true) (problem true SPARSE_TARGET) ∅).2.
Proof.
  assert (same_but_dcp (problem false SPARSE_TARGET)
                       (problem true SPARSE_TARGET)) as Hsame.
  { repeat split. }
  split; [exact Hsame|]. split; [reflexivity|].
  destruct (dcp_check_is_advisory (BE:=fixed_backends true)
              (problem false SPARSE_TARGET) (problem true SPARSE_TARGET) ∅)
    as (_ & Hsolve & _ & Hsame_run).
  split.
  - rewrite Hsolve. reflexivity.
  - apply (Hsame_run Hsame).
Defined.
End Problems.
End Evaluation.

(* ----------------------------------------------------------------- *)
(** ** problem.py: the dispatch of [solve] *)

Module DispatchFacts.
Import Prob.

Section Dispatch.
Context `{NI : NumericInterface} `{SI : !SetIteration} `{BE : !Backends}.

Lemma solve_with_method (REG : gmap PyVal SolveMethod) (self : Problem) args kwargs store name :
  kwargs !! "method" = Some name →
  name ≠ PyNone →
  solve REG self args kwargs store
    = match REG !! name with
      | Some func => func self args (delete "method" kwargs) store
      | None => ([], Raised (KeyError name))
      end.
Proof.
  intros Hm Hname. unfold solve. rewrite Hm.
  case_decide as Hn; [reflexivity|]. exfalso. apply Hname. exact Hn.
Qed.

Lemma solve_without_method (REG : gmap PyVal SolveMethod) (self : Problem) args kwargs store :
  kwargs !! "method" = None ∨ kwargs !! "method" = Some PyNone →
  solve REG self args kwargs store
    = call__solve self args (delete "method" kwargs) store.
Proof.
  intros [Hm|Hm]; unfold solve; rewrite Hm;
    (case_decide as Hn; [exfalso; by apply Hn|done]).
Qed.

(** X1: a method registered under a name (whatever was registered under
    that name before) is what [solve(method=name)] calls: with the
    positional arguments and the store as they are, with the keyword
    arguments without the key 'method', and without running [_solve]. *)
Theorem register_then_solve (REG : gmap PyVal SolveMethod) (self : Problem) args kwargs store name func :
  name ≠ PyNone →
  solve (register_solve name func REG) self args
        (<["method" := name]> kwargs) store
    = func self args (delete "method" kwargs) store.
Proof.
  intros Hname.
  rewrite (solve_with_method _ _ _ _ _ name); [|apply lookup_insert_eq|done].
  unfold register_solve. by rewrite lookup_insert_eq, delete_insert_eq.
Qed.

(** X2: registering a method under a name changes nothing for a call that
    does not ask for that name. *)
Theorem register_other_name (REG : gmap PyVal SolveMethod) (self : Problem) args kwargs store name func :
  kwargs !! "method" ≠ Some name →
  solve (register_solve name func REG) self args kwargs store
    = solve REG self args kwargs store.
Proof.
  intros Hm. unfold solve.
  destruct (decide (default PyNone (kwargs !! "method") ≠ PyNone)) as [Hn|Hn];
    [|done].
  unfold register_solve. rewrite lookup_insert_ne; [done|].
  intros ->. apply Hm. destruct (kwargs !! "method"); simpl in *; congruence.
Qed.

(** X3: asking for a method that is not registered raises the key error
    of the lookup; nothing has been printed and the problem has not been
    looked at. *)
Theorem solve_unregistered_method (REG : gmap PyVal SolveMethod) (self : Problem) args kwargs store name :
  kwargs !! "method" = Some name →
  name ≠ PyNone →
  REG !! name = None →
  solve REG self args kwargs store = ([], Raised (KeyError name)).
Proof.
  intros Hm Hname Hreg.
  rewrite (solve_with_method _ _ _ _ _ name Hm Hname).
  unfold SolveMethod in *. by rewrite Hreg.
Qed.

(** X4: a method registered under [None] is never called: [method=None]
    is the call without a method. *)
Theorem register_under_None (REG : gmap PyVal SolveMethod) (self : Problem) args kwargs store func :
  solve (register_solve PyNone func REG) self args kwargs store
    = solve REG self args kwargs store.
Proof.
  unfold solve.
  destruct (decide (default PyNone (kwargs !! "method") ≠ PyNone)) as [Hn|Hn];
    [|done].
  unfold register_solve. by rewrite lookup_insert_ne by congruence.
Qed.

(** X5: without a method, [solve] is [_solve] when it is given no other
    argument, and raises the type error of the call, before anything is
    printed, when it is given one. *)
Theorem solve_default_path (REG : gmap PyVal SolveMethod) (self : Problem) args kwargs store :
  kwargs !! "method" = None →
  (args = [] → kwargs = ∅ →
     solve REG self args kwargs store
       = ((_solve self store).1,
          match (_solve self store).2 with
          | Some (store', r) => Returned store' r
          | None => Raised IndexError
          end))
  ∧ (args ≠ [] ∨ kwargs ≠ ∅ →
       solve REG self args kwargs store = ([], Raised TypeError)).
Proof.
  intros Hm. rewrite solve_without_method by auto.
  rewrite (delete_id _ _ Hm). unfold call__solve. split.
  - intros -> ->. rewrite decide_True by done.
    by destruct (_solve self store) as [printed [[st r]|]].
  - intros Hargs. rewrite decide_False; [done|]. intros [-> ->].
    by destruct Hargs.
Qed.
End Dispatch.
End DispatchFacts.

(* ----------------------------------------------------------------- *)
(** ** problem.py: what [save_values] and the solved branch write *)

Module WriteBackFacts.
Import Prob SolveFacts.

Section SaveValues.
Context `{NI : NumericInterface} {A : Type} `{!Saveable A}.

(** The value of an object is the block of its last occurrence. *)
Lemma save_values_from_last vec (objs : list A) off st st' i o :
  save_values_from vec objs off st = Some st' →
  objs !! i = Some o →
  obj_ref o ∉ obj_ref <$> drop (S i) objs →
  st' !! obj_ref o = block_value vec (off + offset_of objs i) o
  ∧ is_Some (block_value vec (off + offset_of objs i) o).
Proof.
  revert off st i. induction objs as [|o' objs IH]; intros off st i; simpl.
  - done.
  - destruct (block_value vec off o') as [v|] eqn:Hv; simpl; [|done].
    intros Hs Hi Hlast. destruct i as [|i]; simpl in Hi.
    + simplify_eq. unfold offset_of. simpl. rewrite Nat.add_0_r, Hv.
      rewrite (save_values_from_other _ _ _ _ _ _ Hs Hlast).
      rewrite lookup_insert_eq. eauto.
    + destruct (IH _ _ _ Hs Hi Hlast) as [Hl Hb].
      unfold offset_of in *. rewrite firstn_cons, fmap_cons. simpl.
      by rewrite Nat.add_assoc.
Qed.

Lemma save_values_from_scalar_raises vec (objs : list A) off st i o :
  objs !! i = Some o →
  obj_size o = (1, 1) →
  mat_getitem vec (off + offset_of objs i) = None →
  save_values_from vec objs off st = None.
Proof.
  revert off st i. induction objs as [|o' objs IH]; intros off st i; simpl.
  - done.
  - intros Hi Hsz Hget. destruct i as [|i]; simpl in Hi.
    + simplify_eq. unfold offset_of in Hget. simpl in Hget.
      rewrite Nat.add_0_r in Hget.
      unfold block_value. rewrite Hsz. rewrite decide_True by done.
      by rewrite Hget.
    + destruct (block_value vec off o') as [v|]; simpl; [|done].
      apply (IH _ _ i); [done|done|].
      unfold offset_of in *. rewrite firstn_cons, fmap_cons in Hget.
      simpl in Hget. by rewrite Nat.add_assoc in Hget.
Qed.

(** X6: after [save_values] every object of the list has a value, and
    every other object has the value it had. *)
Theorem save_values_cover_and_frame vec (objs : list A)
    (store st' : gmap ObjRef Value) :
  save_values vec objs store = Some st' →
  (∀ o, o ∈ objs → is_Some (st' !! obj_ref o))
  ∧ (∀ r, r ∉ obj_ref <$> objs → st' !! r = store !! r).
Proof.
  unfold save_values. intros Hs. split.
  - intros o Ho. by eapply save_values_from_written.
  - intros r Hr. by eapply save_values_from_other.
Qed.

(** X7: the value [save_values] leaves on an object is cut out of the
    result vector at the offset of the object, the sum of rows * cols of
    the objects before it (at its last occurrence, should it come more
    than once): the entry at that offset for a 1 x 1 object, and for any
    other size the slice of rows * cols entries copied into a zero matrix
    of the interface of the object. *)
Theorem save_values_block vec (objs : list A) (store st' : gmap ObjRef Value)
    (i : nat) (o : A) :
  save_values vec objs store = Some st' →
  objs !! i = Some o →
  obj_ref o ∉ obj_ref <$> drop (S i) objs →
  (obj_size o = (1, 1) →
     ∃ n, mat_getitem vec (offset_of objs i) = Some n
          ∧ st' !! obj_ref o = Some (Scalar n))
  ∧ (obj_size o ≠ (1, 1) →
       st' !! obj_ref o
         = Some (Matrix
             (block_copy (obj_interface o)
                (zeros (obj_interface o) (obj_size o).1 (obj_size o).2)
                (mat_getslice vec (offset_of objs i)
                   (offset_of objs i + (obj_size o).1 * (obj_size o).2))
                0 0 (obj_size o).1 (obj_size o).2))).
Proof.
  unfold save_values. intros Hs Hi Hlast.
  destruct (save_values_from_last _ _ _ _ _ _ _ Hs Hi Hlast) as [Hl [v Hv]].
  rewrite Nat.add_0_l in Hl, Hv. rewrite Hl. clear Hl.
  unfold block_value in *. destruct (obj_size o) as [rows cols]. simpl. split.
  - intros Hsz. rewrite decide_True in * by done.
    destruct (mat_getitem vec (offset_of objs i)) as [n|]; [|done]. eauto.
  - intros Hsz. by rewrite decide_False by done.
Qed.

(** X8: when the result vector has no entry at the offset of a 1 x 1
    object, [save_values] raises: no default is stored. *)
Theorem save_values_scalar_out_of_range vec (objs : list A)
    (store : gmap ObjRef Value) (i : nat) (o : A) :
  objs !! i = Some o →
  obj_size o = (1, 1) →
  mat_getitem vec (offset_of objs i) = None →
  save_values vec objs store = None.
Proof.
  intros Hi Hsz Hget. unfold save_values.
  by apply (save_values_from_scalar_raises _ _ _ _ i o).
Qed.
End SaveValues.

Section Solved.
Context `{NI : NumericInterface} `{SI : !SetIteration} `{BE : !Backends}.

(** X9: whatever the backend answers, a call of [_solve] that returns
    leaves every object that is neither a variable nor a constraint of
    the canonical program with the value it had. *)
Theorem solve_frame (self : Problem) (store st' : gmap ObjRef Value)
    (r : SolveResult) (ref : ObjRef) :
  (_solve self store).2 = Some (st', r) →
  ref ∉ obj_ref <$> (assemble self).1.1.1 →
  ref ∉ obj_ref <$> (assemble self).1.1.2 →
  ref ∉ obj_ref <$> (assemble self).1.2 →
  st' !! ref = store !! ref.
Proof.
  rewrite solve_unfold. cbn [snd]. unfold conclude.
  destruct (solved _); [|by intros [= <- _]].
  destruct (write_back _ _ _ _ store) as [st|] eqn:Hwb; simpl; [|done].
  intros [= <- _] Hv He Hi.
  apply write_back_Some in Hwb as (st1 & st2 & H1 & H2 & H3).
  rewrite (save_values_from_other _ _ _ _ _ _ H3 Hi).
  rewrite (save_values_from_other _ _ _ _ _ _ H2 He).
  apply (save_values_from_other _ _ _ _ _ _ H1 Hv).
Qed.

Lemma NoDup_ConRef (cs : list AffConstr) :
  NoDup (con_id <$> cs) → NoDup (obj_ref <$> cs).
Proof.
  intros Hnd. change (obj_ref <$> cs) with ((ConRef ∘ con_id) <$> cs).
  rewrite list_fmap_compose. apply NoDup_fmap_2; [by intros ?? [=]|done].
Qed.

(** X10: when the backend reports success and the constraints of the
    canonical program are distinct objects, every equality constraint has
    the block of the vector y at its offset and every inequality
    constraint (the formatted cones among them) the block of the vector z
    at its offset. *)
Theorem solve_duals (self : Problem) (store st' : gmap ObjRef Value)
    (r : SolveResult) :
  let eq_constr := (assemble self).1.1.2 in
  let ineq_constr := (assemble self).1.2 in
  let out := backend_outcome self (assemble self).2 in
  solved out = true →
  NoDup (con_id <$> eq_constr ++ ineq_constr) →
  (_solve self store).2 = Some (st', r) →
  (∀ i c, eq_constr !! i = Some c →
     st' !! ConRef (con_id c)
       = block_value (results_y out) (offset_of eq_constr i) c
     ∧ is_Some (st' !! ConRef (con_id c)))
  ∧ (∀ i c, ineq_constr !! i = Some c →
       st' !! ConRef (con_id c)
         = block_value (results_z out) (offset_of ineq_constr i) c
       ∧ is_Some (st' !! ConRef (con_id c))).
Proof.
  intros eq_constr ineq_constr out Hsolved Hnd.
  rewrite solve_unfold. cbn [snd]. fold eq_constr ineq_constr out.
  unfold conclude. rewrite Hsolved.
  destruct (write_back _ _ _ _ store) as [st|] eqn:Hwb; simpl; [|done].
  intros [= <- _].
  apply write_back_Some in Hwb as (st1 & st2 & H1 & H2 & H3).
  rewrite fmap_app in Hnd. apply NoDup_app in Hnd as (Hnde & Hdisj & Hndi).
  split.
  - intros i c Hc.
    destruct (save_values_from_lookup _ _ _ _ _ _ _ H2 (NoDup_ConRef _ Hnde) Hc)
      as [Hl Hb].
    assert (obj_ref c ∉ obj_ref <$> ineq_constr) as Hout.
    { intros (c' & [= Hid] & Hc')%list_elem_of_fmap.
      apply (Hdisj (con_id c)).
      - apply list_elem_of_fmap_2. by eapply list_elem_of_lookup_2.
      - rewrite Hid. by apply list_elem_of_fmap_2. }
    pose proof (save_values_from_other _ _ _ _ _ _ H3 Hout) as Hsame.
    change (obj_ref c) with (ConRef (con_id c)) in Hl, Hsame.
    rewrite Hsame. split; [exact Hl|by rewrite Hl].
  - intros i c Hc.
    destruct (save_values_from_lookup _ _ _ _ _ _ _ H3 (NoDup_ConRef _ Hndi) Hc)
      as [Hl Hb].
    change (obj_ref c) with (ConRef (con_id c)) in Hl.
    split; [exact Hl|by rewrite Hl].
Qed.
End Solved.
End WriteBackFacts.

(* ----------------------------------------------------------------- *)
(** ** problem.py: the assembled matrices and the routing *)

Module AssemblyFacts.
Import Prob ProbFacts VariableFacts SolveFacts.

Lemma foldl_invariant {A B} (P : A → Prop) (f : A → B → A) (l : list B) (a : A) :
  P a → (∀ acc x, x ∈ l → P acc → P (f acc x)) → P (foldl f a l).
Proof.
  revert a. induction l as [|x l IH]; intros a Ha Hf; simpl; [done|].
  apply IH.
  - apply Hf; [by left|done].
  - intros acc y Hy. apply Hf. by right.
Qed.

Lemma foldl_ext_in {A B} (f g : A → B → A) (l : list B) (a : A) :
  (∀ acc x, x ∈ l → f acc x = g acc x) → foldl f a l = foldl g a l.
Proof.
  revert a. induction l as [|x l IH]; intros a Hfg; simpl; [done|].
  rewrite Hfg by (by left). apply IH. intros acc y Hy. apply Hfg. by right.
Qed.

Section Matrix.
Context `{NI : NumericInterface}.

Lemma constraints_matrix_unfold affs var_ids interface :
  constraints_matrix affs var_ids interface
    = (foldl (expression_step interface var_ids)
             (zeros interface (sum_list (aff_entries <$> affs)) (length var_ids), 0)
             affs).1.
Proof.
  unfold constraints_matrix. f_equal. apply foldl_ext_in.
  intros [m vo] a _. cbn. f_equal. f_equal. apply foldl_ext_in.
  by intros [m' h] id _.
Qed.

Lemma slot_fold_ext interface co co' vo n acc var_ids :
  (∀ id, id ∈ var_ids → co !! id = co' !! id) →
  foldl (slot_step interface co vo n) acc var_ids
    = foldl (slot_step interface co' vo n) acc var_ids.
Proof.
  intros Hco. apply foldl_ext_in. intros [m h] id Hid. simpl.
  by rewrite (Hco id Hid).
Qed.

Lemma slot_fold_absent interface co vo n m h var_ids :
  (∀ id, id ∈ var_ids → co !! id = None) →
  (foldl (slot_step interface co vo n) (m, h) var_ids).1 = m.
Proof.
  intros Hco.
  apply (foldl_invariant (λ acc, acc.1 = m)); [done|].
  intros [m' h'] id Hid. simpl. intros ->. by rewrite (Hco id Hid).
Qed.

Lemma slot_fold_size `{!SizeLaws} interface co vo n m h var_ids :
  mat_size (foldl (slot_step interface co vo n) (m, h) var_ids).1 = mat_size m.
Proof.
  apply (foldl_invariant (λ acc, mat_size acc.1 = mat_size m)); [done|].
  intros [m' h'] id Hid. simpl. intros <-.
  destruct (co !! id); [apply size_block_copy|done].
Qed.

Lemma expression_fold_ext interface var_ids acc affs affs' :
  Forall2 (λ a a', aff_size a = aff_size a'
                   ∧ ∀ id, id ∈ var_ids →
                       aff_coefficients a interface !! id
                       = aff_coefficients a' interface !! id) affs affs' →
  foldl (expression_step interface var_ids) acc affs
    = foldl (expression_step interface var_ids) acc affs'.
Proof.
  intros Hall. revert acc.
  induction Hall as [|a a' affs affs' [Hsz Hco] _ IH]; intros [m vo]; [done|].
  simpl. rewrite Hsz, (slot_fold_ext _ _ _ _ _ _ _ Hco). apply IH.
Qed.

(** X11: [constraints_matrix] reads of every expression its size and its
    coefficient blocks under the slot ids it is given, and nothing else:
    two lists of expressions that agree on these give the same matrix.  A
    block under the constant slot does not reach A or G, and a block
    under a variable slot does not reach b or h. *)
Theorem constraints_matrix_requested_slots (affs affs' : list AffObj)
    (var_ids : list SlotId) (interface : Target) :
  Forall2 (λ a a', aff_size a = aff_size a'
                   ∧ ∀ id, id ∈ var_ids →
                       aff_coefficients a interface !! id
                       = aff_coefficients a' interface !! id) affs affs' →
  constraints_matrix affs var_ids interface
    = constraints_matrix affs' var_ids interface.
Proof.
  intros Hall. rewrite !constraints_matrix_unfold.
  assert (aff_entries <$> affs = aff_entries <$> affs') as ->.
  { induction Hall as [|a a' ?? [Hsz _] _ IH]; [done|].
    rewrite !fmap_cons, IH. unfold aff_entries. by rewrite Hsz. }
  by rewrite (expression_fold_ext _ _ _ _ _ Hall).
Qed.

(** X12: when no expression has a block under any of the slot ids, the
    matrix is the zero matrix of the interface, with one row per entry of
    the expressions and one column per slot id: nothing is written.  This
    is the case of an empty list of slot ids and of an empty list of
    expressions. *)
Theorem constraints_matrix_absent_slots (affs : list AffObj)
    (var_ids : list SlotId) (interface : Target) :
  (∀ a id, a ∈ affs → id ∈ var_ids →
           aff_coefficients a interface !! id = None) →
  constraints_matrix affs var_ids interface
    = zeros interface (sum_list (aff_entries <$> affs)) (length var_ids).
Proof.
  intros Hnone. rewrite constraints_matrix_unfold.
  apply (foldl_invariant (λ acc, acc.1 = zeros interface _ _)); [done|].
  intros [m vo] a Ha. simpl. intros ->.
  apply slot_fold_absent. intros id Hid. by apply Hnone.
Qed.

Lemma expression_fold_size `{!SizeLaws} (affs : list AffObj)
    (var_ids : list SlotId) (interface : Target) :
  mat_size (constraints_matrix affs var_ids interface)
    = (sum_list (aff_entries <$> affs), length var_ids).
Proof.
  rewrite constraints_matrix_unfold.
  apply (foldl_invariant
           (λ acc, mat_size acc.1
                   = (sum_list (aff_entries <$> affs), length var_ids))).
  - apply size_zeros.
  - intros [m vo] a Ha. simpl. intros <-. apply slot_fold_size.
Qed.

(** X13: on an interface whose [zeros] has the size asked for and whose
    [block_copy] does not resize, the matrix has one row per entry of the
    expressions and one column per slot id. *)
Theorem constraints_matrix_size `{!SizeLaws} (affs : list AffObj)
    (var_ids : list SlotId) (interface : Target) :
  mat_size (constraints_matrix affs var_ids interface)
    = (sum_list (aff_entries <$> affs), length var_ids).
Proof. apply expression_fold_size. Qed.
End Matrix.

Section Routing.
Context `{NI : NumericInterface} `{SI : !SetIteration}.

Lemma sdp_test_never_fires_aux (self : Problem) :
  targets_cvxopt self (assemble self).2 = true
  ↔ (mat_size (asm_G (assemble self).2)).1 = 0
    ∨ (mat_size (asm_G (assemble self).2)).2 = 0
    ∨ interface self = DENSE_TARGET.
Proof.
  rewrite targets_cvxopt_spec, assemble_dims_s. split; [|by right].
  by intros [?|?].
Qed.

(** X14: [canonicalize] leaves the SDP list empty, so the first test of
    the routing never fires: a problem goes to conelp exactly when G has a
    zero dimension or its interface is the dense one. *)
Theorem sdp_test_never_fires (self : Problem) :
  targets_cvxopt self (assemble self).2 = true
  ↔ (mat_size (asm_G (assemble self).2)).1 = 0
    ∨ (mat_size (asm_G (assemble self).2)).2 = 0
    ∨ interface self = DENSE_TARGET.
Proof. apply sdp_test_never_fires_aux. Qed.

Lemma routing_by_counts_aux `{!SizeLaws} (self : Problem) :
  targets_cvxopt self (assemble self).2 = true
  ↔ sum_list (obj_entries <$> (assemble self).1.2) = 0
    ∨ sum_list (entries_of <$> (assemble self).1.1.1) = 0
    ∨ interface self = DENSE_TARGET.
Proof.
  rewrite sdp_test_never_fires_aux. rewrite assemble_unfold.
  cbn [fst snd asm_G]. rewrite expression_fold_size. cbn [fst snd].
  rewrite variable_ids_length, <- list_fmap_compose. done.
Qed.

(** X15: on an interface with the size laws, a problem goes to ecos
    exactly when its interface is not the dense one, its inequality list
    (the formatted cones included) has at least one entry and its
    variables have at least one slot; in every other case it goes to
    conelp. *)
Theorem routing_by_counts `{!SizeLaws} (self : Problem) :
  targets_cvxopt self (assemble self).2 = true
  ↔ sum_list (obj_entries <$> (assemble self).1.2) = 0
    ∨ sum_list (entries_of <$> (assemble self).1.1.1) = 0
    ∨ interface self = DENSE_TARGET.
Proof. apply routing_by_counts_aux. Qed.
End Routing.
End AssemblyFacts.

(* ----------------------------------------------------------------- *)
(** ** problem.py: what the canonical program holds *)

Module CanonicalFacts.
Import Prob ProbFacts SolveFacts AssemblyFacts.

Section Canonical.
Context `{NI : NumericInterface} `{SI : !SetIteration}.

(** The iteration of an empty list is empty. *)
Lemma list_set_nil : list_set [] = [].
Proof.
  destruct (list_set []) as [|c l] eqn:Hl; [done|].
  assert (c ∈ list_set []) as Hc by (rewrite Hl; by left).
  by apply list_set_sub, elem_of_nil in Hc.
Qed.

Lemma list_set_NoDup_objects l : NoDup (list_set l).
Proof. apply (NoDup_fmap_1 object_id), list_set_NoDup. Qed.

Lemma consistent_same_elements l1 l2 :
  identities_consistent l1 → (∀ c, c ∈ l1 ↔ c ∈ l2) → identities_consistent l2.
Proof.
  intros Hcons Hsame c1 c2 H1 H2. apply Hcons; by apply Hsame.
Qed.

Lemma list_set_Permutation l1 l2 :
  identities_consistent l1 → (∀ c, c ∈ l1 ↔ c ∈ l2) →
  list_set l1 ≡ₚ list_set l2.
Proof.
  intros Hcons Hsame.
  apply NoDup_Permutation; [apply list_set_NoDup_objects..|].
  intros c. rewrite (elem_of_list_set l1 c Hcons).
  rewrite (elem_of_list_set l2 c (consistent_same_elements _ _ Hcons Hsame)).
  apply Hsame.
Qed.

Lemma elem_of_concat {A} (x : A) (ls : list (list A)) :
  x ∈ concat ls ↔ ∃ l, l ∈ ls ∧ x ∈ l.
Proof.
  rewrite list_elem_of_In, in_concat.
  by setoid_rewrite list_elem_of_In.
Qed.

(** X16: [canonicalize] invents no constraint: an equality constraint of
    the canonical program is an equality object generated by the
    objective or by a constraint of the problem, and an inequality
    constraint is such an inequality object or comes out of the
    [format()] of such a cone. *)
Theorem canonical_constraints_provenance (self : Problem) :
  let combined :=
    (obj_canonical_form (objective self)).2
    ++ concat ((λ c, (tc_canonical_form c).2) <$> constraints self) in
  (∀ a, a ∈ (canonicalize self).1.1.2 → AffEqConstraint a ∈ combined)
  ∧ (∀ a, a ∈ (canonicalize self).1.2 →
       AffLeqConstraint a ∈ combined
       ∨ ∃ s, SOC s ∈ combined ∧ a ∈ soc_format s).
Proof.
  intros combined. rewrite canonicalize_unfold. fold combined. simpl. split.
  - intros a Ha%elem_of_eq_bucket. by apply list_set_sub.
  - intros a [Ha%elem_of_ineq_bucket|Ha]%elem_of_app.
    + left. by apply list_set_sub.
    + right. apply elem_of_concat in Ha as (l & Hl & Ha).
      apply list_elem_of_fmap in Hl as (s & -> & Hs%elem_of_soc_bucket).
      exists s. split; [by apply list_set_sub|done].
Qed.

Lemma sum_entries_concat (socs : list SOCConstr) :
  (∀ s, s ∈ socs → sum_list (obj_entries <$> soc_format s) = soc_size s) →
  sum_list (obj_entries <$> concat (soc_format <$> socs))
    = sum_list (soc_size <$> socs).
Proof.
  induction socs as [|s socs IH]; intros Hsz; [done|].
  rewrite !fmap_cons. cbn [concat].
  rewrite fmap_app, sum_list_with_app, (Hsz s) by (by left).
  rewrite IH; [done|]. intros s' Hs'. apply Hsz. by right.
Qed.

(** X17: when the [format()] of every cone has as many entries as the
    [size] of the cone says, the inequality list of the canonical program
    has dims['l'] + sum(dims['q']) entries: the rows of G and h are the
    rows that the cone dimensions announce. *)
Theorem inequality_rows_match_dims (self : Problem) :
  let combined :=
    (obj_canonical_form (objective self)).2
    ++ concat ((λ c, (tc_canonical_form c).2) <$> constraints self) in
  (∀ s, SOC s ∈ combined →
        sum_list (obj_entries <$> soc_format s) = soc_size s) →
  sum_list (obj_entries <$> (canonicalize self).1.2)
    = dims_l (canonicalize self).2 + sum_list (dims_q (canonicalize self).2).
Proof.
  intros combined Hformat. rewrite canonicalize_unfold. fold combined. simpl.
  rewrite fmap_app, sum_list_with_app. f_equal.
  apply sum_entries_concat. intros s Hs%elem_of_soc_bucket.
  by apply Hformat, list_set_sub.
Qed.

(** X18: no object is in two buckets, and none is twice in one: the
    identities of the objects of the three buckets are pairwise
    distinct. *)
Theorem buckets_disjoint (cs : list Constraint) :
  NoDup ((con_id <$> (filter_constraints cs).1.1)
         ++ (con_id <$> (filter_constraints cs).1.2)
         ++ (soc_id <$> (filter_constraints cs).2)).
Proof.
  assert ((con_id <$> (filter_constraints cs).1.1)
          ++ (con_id <$> (filter_constraints cs).1.2)
          ++ (soc_id <$> (filter_constraints cs).2)
          = object_id <$> bucket_objects (filter_constraints cs)) as ->.
  { unfold bucket_objects. rewrite !fmap_app, <- !list_fmap_compose. done. }
  rewrite bucket_objects_Permutation.
  eapply sublist_NoDup; [apply list_set_NoDup|].
  apply fmap_sublist, sublist_filter.
Qed.

(** X19: the buckets do not depend on the order of the constraint list
    nor on how often an object is in it: two consistent lists with the
    same objects give buckets with the same objects, each once, and the
    same linear cone size. *)
Theorem buckets_ignore_order_and_repetition (l1 l2 : list Constraint) :
  identities_consistent l1 →
  (∀ c, c ∈ l1 ↔ c ∈ l2) →
  (filter_constraints l1).1.1 ≡ₚ (filter_constraints l2).1.1
  ∧ (filter_constraints l1).1.2 ≡ₚ (filter_constraints l2).1.2
  ∧ (filter_constraints l1).2 ≡ₚ (filter_constraints l2).2
  ∧ sum_list (obj_entries <$> (filter_constraints l1).1.2)
    = sum_list (obj_entries <$> (filter_constraints l2).1.2).
Proof.
  intros Hcons Hsame.
  pose proof (list_set_Permutation l1 l2 Hcons Hsame) as Hp.
  rewrite !filter_constraints_unfold. simpl.
  split; [by rewrite Hp|]. split; [by rewrite Hp|]. split; by rewrite Hp.
Qed.

(** X20: a problem whose objective and constraints generate no constraint
    has an empty canonical program with all cone dimensions zero, and on
    an interface with the size laws it goes to conelp, whatever its
    interface. *)
Theorem unconstrained_problem `{!SizeLaws} (self : Problem) :
  (obj_canonical_form (objective self)).2
    ++ concat ((λ c, (tc_canonical_form c).2) <$> constraints self) = [] →
  canonicalize self
    = ((obj_canonical_form (objective self)).1, [], [],
       {| dims_l := 0; dims_q := []; dims_s := [] |})
  ∧ targets_cvxopt self (assemble self).2 = true.
Proof.
  intros Hempty.
  assert (canonicalize self
          = ((obj_canonical_form (objective self)).1, [], [],
             {| dims_l := 0; dims_q := []; dims_s := [] |})) as Hc.
  { rewrite canonicalize_unfold, Hempty, filter_constraints_unfold.
    by rewrite list_set_nil. }
  split; [exact Hc|].
  apply routing_by_counts_aux. left.
  rewrite assemble_unfold, Hc. done.
Qed.
End Canonical.
End CanonicalFacts.

(* ----------------------------------------------------------------- *)
(** ** problem.py: the variables and their slots *)

Module EnumerationFacts.
Import Prob VariableFacts.

Section Enumeration.
Context `{NI : NumericInterface}.

Lemma dict_from_app d0 l1 l2 :
  dict_from d0 (l1 ++ l2) = dict_from (dict_from d0 l1) l2.
Proof. apply foldl_app. Qed.

Lemma dict_from_not_in d0 vars k :
  k ∉ var_id <$> vars → dict_from d0 vars !! k = d0 !! k.
Proof.
  revert d0. induction vars as [|v vars IH]; intros d0 Hk; [done|].
  rewrite fmap_cons in Hk. apply not_elem_of_cons in Hk as [Hne Hk].
  cbn [dict_from foldl]. change (foldl _ ?d vars) with (dict_from d vars).
  rewrite (IH _ Hk). by rewrite lookup_insert_ne.
Qed.

Lemma dict_from_last d0 l1 v l2 :
  var_id v ∉ var_id <$> l2 →
  dict_from d0 (l1 ++ v :: l2) !! var_id v = Some v.
Proof.
  intros Hlast. rewrite dict_from_app.
  change (dict_from ?d (v :: l2)) with (dict_from (<[var_id v := v]> d) l2).
  rewrite (dict_from_not_in _ _ _ Hlast). apply lookup_insert_eq.
Qed.

(** X21: whether or not one id is carried by several variable objects,
    [variables] returns one variable for each id that the objective or a
    constraint refers to, and no other, in strictly ascending order of
    the ids. *)
Theorem variables_one_per_id (objective : AffObj) (cs : list AffConstr) :
  StronglySorted (strict String.le) (var_id <$> variables objective cs)
  ∧ (∀ k, k ∈ var_id <$> variables objective cs
          ↔ k ∈ var_id <$> collected objective cs)
  ∧ (∀ v, v ∈ variables objective cs → v ∈ collected objective cs).
Proof.
  split; [|split].
  - rewrite variables_ids. apply sorted_keys_strict.
  - intros k. rewrite variables_ids, sorted_keys_elem_of. split.
    + intros [v [[Hv <-]|Hd]%dict_from_Some].
      * by apply list_elem_of_fmap_2.
      * by rewrite lookup_empty in Hd.
    + intros Hk. apply dict_from_is_Some. by left.
  - intros v [[Hv _]|Hd]%elem_of_variables%dict_from_Some; [done|].
    by rewrite lookup_empty in Hd.
Qed.

(** X22: of several variable objects with one id, the one that is
    gathered last is the one [variables] returns (the comprehension
    overwrites the entry of the id), so that its size decides the slots
    of the id. *)
Theorem variables_last_wins (objective : AffObj) (cs : list AffConstr)
    (l1 l2 : list VariableObj) (v : VariableObj) :
  collected objective cs = l1 ++ v :: l2 →
  var_id v ∉ var_id <$> l2 →
  v ∈ variables objective cs
  ∧ ∀ w, w ∈ variables objective cs → var_id w = var_id v → w = v.
Proof.
  intros Hcol Hlast.
  assert (dict_from ∅ (collected objective cs) !! var_id v = Some v) as Hv.
  { rewrite Hcol. by apply dict_from_last. }
  split; [by apply elem_of_variables|].
  intros w Hw%elem_of_variables Hid. rewrite Hid, Hv in Hw. by injection Hw.
Qed.

Lemma elem_of_slots (v : VariableObj) (s : SlotId) :
  s ∈ slots v
  ↔ ∃ row col, s = index_id v row col
               ∧ row < (var_size v).1 ∧ col < (var_size v).2.
Proof.
  unfold slots. rewrite list_elem_of_bind. split.
  - intros (col & (row & ->%list_elem_of_singleton & Hrow%elem_of_seq)%list_elem_of_bind
             & Hcol%elem_of_seq).
    exists row, col. split; [done|lia].
  - intros (row & col & -> & Hrow & Hcol). exists col. split.
    + apply list_elem_of_bind. exists row. split; [by left|].
      apply elem_of_seq. lia.
    + apply elem_of_seq. lia.
Qed.

Lemma slots_NoDup (v : VariableObj) : NoDup (slots v).
Proof.
  unfold slots. apply NoDup_bind; [| |apply NoDup_seq].
  - intros c1 c2 s _ _
      (r1 & ->%list_elem_of_singleton & _)%list_elem_of_bind
      (r2 & [= _ <-]%list_elem_of_singleton & _)%list_elem_of_bind.
    done.
  - intros col _. apply NoDup_bind; [| |apply NoDup_seq].
    + intros r1 r2 s _ _ ->%list_elem_of_singleton [= <-]%list_elem_of_singleton.
      done.
    + intros row _. apply NoDup_singleton.
Qed.

Lemma fmap_inj_on_NoDup {A B} (f : A → B) (l : list A) (x y : A) :
  NoDup (f <$> l) → x ∈ l → y ∈ l → f x = f y → x = y.
Proof.
  intros Hnd [i Hi]%list_elem_of_lookup [j Hj]%list_elem_of_lookup Hxy.
  assert (i = j) as ->; [|congruence].
  apply (NoDup_lookup (f <$> l) i j (f x) Hnd).
  - by rewrite list_lookup_fmap, Hi.
  - by rewrite list_lookup_fmap, Hj, Hxy.
Qed.

Lemma elem_of_variable_ids (vs : list VariableObj) (s : SlotId) :
  s ∈ variable_ids vs
  ↔ ∃ v row col, v ∈ vs ∧ s = index_id v row col
                 ∧ row < (var_size v).1 ∧ col < (var_size v).2.
Proof.
  unfold variable_ids. rewrite list_elem_of_bind. split.
  - intros (v & (row & col & ?)%elem_of_slots & Hv). by exists v, row, col.
  - intros (v & row & col & Hv & Hs). exists v. split; [|done].
    apply elem_of_slots. by exists row, col.
Qed.

Lemma variable_ids_NoDup_of (vs : list VariableObj) :
  NoDup (var_id <$> vs) → NoDup (variable_ids vs).
Proof.
  intros Hnd. unfold variable_ids. apply NoDup_bind.
  - intros v1 v2 s Hv1 Hv2
      (r1 & c1 & -> & _)%elem_of_slots (r2 & c2 & [= Hid _ _] & _)%elem_of_slots.
    by apply (fmap_inj_on_NoDup var_id vs).
  - intros v _. apply slots_NoDup.
  - by apply (NoDup_fmap_1 var_id).
Qed.

(** X23: the slot ids that [_solve] lays the columns of c, A and G out
    with are pairwise distinct, and the constant slot, the one column of
    b and h, is not among them. *)
Theorem variable_slots_distinct (objective : AffObj) (cs : list AffConstr) :
  NoDup (variable_ids (variables objective cs))
  ∧ CONSTANT ∉ variable_ids (variables objective cs).
Proof.
  split.
  - apply variable_ids_NoDup_of, variables_NoDup.
  - by intros (v & row & col & _ & [=] & _)%elem_of_variable_ids.
Qed.

(** X24: the slots of a list of variables are the index ids of its
    variables at the rows and columns within their sizes, and no other: a
    variable with no row or no column has no slot. *)
Theorem variable_ids_within_bounds (vs : list VariableObj)
    (k : string) (row col : nat) :
  IndexId k row col ∈ variable_ids vs
  ↔ ∃ v, v ∈ vs ∧ var_id v = k
         ∧ row < (var_size v).1 ∧ col < (var_size v).2.
Proof.
  rewrite elem_of_variable_ids. split.
  - intros (v & r & c & Hv & [= -> -> ->] & Hr & Hc). by exists v.
  - intros (v & Hv & <- & Hr & Hc). by exists v, row, col.
Qed.
End Enumeration.
End EnumerationFacts.

(* ----------------------------------------------------------------- *)
(** ** The further theorems at concrete inputs *)

Module FurtherEvaluation.
Import ZInterface InsertionOrderFacts.
Import Prob ProbFacts VariableFacts SolveFacts ProbFixtures.
Import DispatchFacts WriteBackFacts AssemblyFacts CanonicalFacts EnumerationFacts.

Ltac cases_of H :=
  repeat (apply elem_of_cons in H as [->|H]); [..|by apply elem_of_nil in H].

Ltac not_among H :=
  cbn in H;
  repeat (apply elem_of_cons in H as [?|H]; [discriminate|]);
  by apply elem_of_nil in H.

Section Dispatch.

(** [solve(method="admm", rho=2)] after [register_solve("admm", admm)]:
    [admm] is called and does not see the keyword 'method'. *)
Lemma register_then_solve_witness :
  solve (BE:=fixed_backends true) (register_solve (PyStr "admm") admm ∅) (problem true SPARSE_TARGET)
        [] {[ "method" := PyStr "admm"; "rho" := PyInt 2 ]} ∅
    = (["admm"], Returned ∅ (StatusString "no method given")).
Proof.
  change ({[ "method" := PyStr "admm"; "rho" := PyInt 2 ]} : gmap string PyVal)
    with (<["method" := PyStr "admm"]> ({[ "rho" := PyInt 2 ]} : gmap string PyVal)).
  rewrite (register_then_solve (BE:=fixed_backends true) ∅ (problem true SPARSE_TARGET) []
             {[ "rho" := PyInt 2 ]} ∅ (PyStr "admm") admm); [|done].
  vm_compute. reflexivity.
Defined.

Lemma register_other_name_witness :
  solve (BE:=fixed_backends true) (register_solve (PyStr "admm") admm ∅) (problem true SPARSE_TARGET)
        [] ∅ ∅
    = solve (BE:=fixed_backends true) ∅ (problem true SPARSE_TARGET) [] ∅ ∅.
Proof.
  apply (register_other_name (BE:=fixed_backends true) ∅ (problem true SPARSE_TARGET) [] ∅ ∅
           (PyStr "admm") admm).
  by rewrite lookup_empty.
Defined.

(** [test_vars.py] calls [solve(method="admm")]; without a registration
    the call raises. *)
Lemma solve_unregistered_method_witness :
  solve (BE:=fixed_backends true) ∅ (problem true SPARSE_TARGET) [] {[ "method" := PyStr "admm" ]} ∅
    = ([], Raised (KeyError (PyStr "admm"))).
Proof.
  apply (solve_unregistered_method (BE:=fixed_backends true) ∅ (problem true SPARSE_TARGET) []
           {[ "method" := PyStr "admm" ]} ∅ (PyStr "admm")).
  - apply lookup_singleton_eq.
  - done.
  - apply lookup_empty.
Defined.

Lemma solve_default_path_witness :
  solve (BE:=fixed_backends true) ∅ (problem false SPARSE_TARGET) [PyInt 1] ∅ ∅ = ([], Raised TypeError)
  ∧ solve (BE:=fixed_backends true) ∅ (problem false SPARSE_TARGET) [] ∅ ∅
      = (dcp_message,
         Returned {[ VarRef "t" := Scalar 1%Z;
                     VarRef "x" := Matrix (column [2; 3]%Z);
                     ConRef 1 := Matrix (column [4; 5]%Z);
                     ConRef 3 := Matrix (column [6; 7]%Z);
                     ConRef 5 := Scalar 8%Z;
                     ConRef 6 := Matrix (column [9; 10]%Z) ]}
                  (ObjectiveValue 7%Z)).
Proof.
  split.
  - apply (solve_default_path (BE:=fixed_backends true) ∅ (problem false SPARSE_TARGET) [PyInt 1] ∅ ∅);
      [apply lookup_empty|]. by left.
  - destruct (solve_default_path (BE:=fixed_backends true) ∅ (problem false SPARSE_TARGET) [] ∅ ∅
                (lookup_empty _)) as [Hrun _].
    rewrite Hrun by done. vm_compute. reflexivity.
Defined.
End Dispatch.

Section WriteBack.

Lemma save_values_tx :
  save_values (A:=VariableObj) (column [1; 2; 3]%Z) [t; x] {[ ConRef 1 := Scalar 0%Z ]}
    = Some (<[ConRef 1 := Scalar 0%Z]> saved).
Proof. vm_compute. reflexivity. Qed.

Lemma save_values_cover_and_frame_witness :
  is_Some (<[ConRef 1 := Scalar 0%Z]> saved !! VarRef "x")
  ∧ <[ConRef 1 := Scalar 0%Z]> saved !! ConRef 1 = Some (Scalar 0%Z).
Proof.
  destruct (save_values_cover_and_frame _ _ _ _ save_values_tx) as [Hcover Hframe].
  split.
  - apply (Hcover x). do 1 right. left.
  - rewrite (Hframe (ConRef 1)); [apply lookup_singleton_eq|].
    intros Hin. not_among Hin.
Defined.

Lemma save_values_block_witness :
  <[ConRef 1 := Scalar 0%Z]> saved !! VarRef "x"
    = Some (Matrix (column [2; 3]%Z)).
Proof.
  destruct (save_values_block _ _ _ _ 1 x save_values_tx eq_refl) as [_ Hm].
  - intros Hin. cbn in Hin. by apply elem_of_nil in Hin.
  - apply Hm. discriminate.
Defined.

Lemma save_values_scalar_out_of_range_witness :
  save_values (A:=VariableObj) (column [1; 2]%Z) [x; t] ∅ = None.
Proof.
  apply (save_values_scalar_out_of_range (NI:=z_interface) (A:=VariableObj)
           (column [1; 2]%Z) [x; t] ∅ 1 t);
    reflexivity.
Defined.

Lemma solve_fixture :
  (_solve (BE:=fixed_backends true) (problem true SPARSE_TARGET) {[ ConRef 77 := Scalar 0%Z ]}).2
    = Some (solved_store, ObjectiveValue 7%Z).
Proof. vm_compute. reflexivity. Qed.

Lemma solve_frame_witness : solved_store !! ConRef 77 = Some (Scalar 0%Z).
Proof.
  rewrite (solve_frame (BE:=fixed_backends true) _ _ _ _ (ConRef 77) solve_fixture).
  - apply lookup_singleton_eq.
  - intros Hin. not_among Hin.
  - intros Hin. not_among Hin.
  - intros Hin. not_among Hin.
Defined.

Lemma solve_duals_witness :
  solved_store !! ConRef 1 = Some (Matrix (column [4; 5]%Z))
  ∧ solved_store !! ConRef 5 = Some (Scalar 8%Z).
Proof.
  assert (NoDup (con_id <$> (assemble (problem true SPARSE_TARGET)).1.1.2
                          ++ (assemble (problem true SPARSE_TARGET)).1.2)) as Hnd.
  { apply (bool_decide_unpack _). by vm_compute. }
  assert (solved (backend_outcome (BE:=fixed_backends true)
                    (problem true SPARSE_TARGET)
                    (assemble (problem true SPARSE_TARGET)).2) = true)
    as Hsolved by reflexivity.
  destruct (solve_duals (BE:=fixed_backends true) (problem true SPARSE_TARGET)
              _ _ _ Hsolved Hnd solve_fixture) as [Heq Hineq].
  split.
  + destruct (Heq 0 e1 eq_refl) as [-> _]. vm_compute. reflexivity.
  + destruct (Hineq 1 f1 eq_refl) as [-> _]. vm_compute. reflexivity.
Defined.
End WriteBack.

Section Assembly.

(** The block under the constant slot does not reach the matrix of the
    variable columns. *)
Lemma constraints_matrix_requested_slots_witness :
  constraints_matrix [with_offset (con_aff i1) [5; 6]%Z]
                     (variable_ids [t; x]) SPARSE_TARGET
    = constraints_matrix [con_aff i1] (variable_ids [t; x]) SPARSE_TARGET.
Proof.
  apply (constraints_matrix_requested_slots
           [with_offset (con_aff i1) [5; 6]%Z] [con_aff i1]
           (variable_ids [t; x]) SPARSE_TARGET).
  constructor; [|constructor]. split; [reflexivity|].
  intros id Hid. cbn [with_offset aff_coefficients].
  apply lookup_insert_ne. intros <-. not_among Hid.
Defined.

(** The right-hand side of a constraint without a constant block. *)
Lemma constraints_matrix_absent_slots_witness :
  constraints_matrix [con_aff i1] [CONSTANT] DENSE_TARGET
    = {| nrows := 2; ncols := 1; entries := [0; 0]%Z |}.
Proof.
  rewrite (constraints_matrix_absent_slots [con_aff i1] [CONSTANT] DENSE_TARGET).
  - reflexivity.
  - intros a id ->%list_elem_of_singleton ->%list_elem_of_singleton.
    by vm_compute.
Defined.

Lemma constraints_matrix_size_witness :
  mat_size (constraints_matrix [con_aff i1; con_aff f1]
                               (variable_ids [t; x]) SPARSE_TARGET)
    = (3, 3).
Proof.
  rewrite (constraints_matrix_size (H:=z_size_laws)
             [con_aff i1; con_aff f1] (variable_ids [t; x]) SPARSE_TARGET).
  reflexivity.
Defined.

(** On the sparse interface the problem of the fixture, with five rows
    of inequalities and three slots, goes to ecos. *)
Lemma routing_by_counts_witness :
  targets_cvxopt (problem true SPARSE_TARGET)
                 (assemble (problem true SPARSE_TARGET)).2 = false.
Proof.
  apply not_true_iff_false.
  rewrite (routing_by_counts (H:=z_size_laws) (problem true SPARSE_TARGET)).
  intros [H|[H|H]]; discriminate H.
Defined.
End Assembly.

Section Canonical.

Lemma inequality_rows_match_dims_witness :
  sum_list (obj_entries <$> (canonicalize (problem true SPARSE_TARGET)).1.2)
    = 2 + sum_list [3].
Proof.
  rewrite (inequality_rows_match_dims (problem true SPARSE_TARGET));
    [reflexivity|].
  intros s Hs. cbn in Hs.
  repeat (apply elem_of_cons in Hs as [Hs|Hs];
          [first [discriminate Hs|injection Hs as ->; reflexivity]|]).
  by apply elem_of_nil in Hs.
Defined.

Lemma refs_same_objects : ∀ c, c ∈ refs ↔ c ∈ refs_shuffled.
Proof.
  intros c. unfold refs, refs_shuffled.
  rewrite !elem_of_cons, !elem_of_nil. tauto.
Qed.

Lemma buckets_ignore_order_and_repetition_witness :
  (filter_constraints refs).1.1 ≡ₚ (filter_constraints refs_shuffled).1.1
  ∧ sum_list (obj_entries <$> (filter_constraints refs).1.2)
    = sum_list (obj_entries <$> (filter_constraints refs_shuffled).1.2).
Proof.
  destruct (buckets_ignore_order_and_repetition refs refs_shuffled
              Evaluation.refs_consistent refs_same_objects)
    as (Heq & _ & _ & Hl).
  split; [exact Heq|exact Hl].
Defined.

Lemma unconstrained_problem_witness :
  (canonicalize (problem_free SPARSE_TARGET)).2
    = {| dims_l := 0; dims_q := []; dims_s := [] |}
  ∧ targets_cvxopt (problem_free SPARSE_TARGET)
                   (assemble (problem_free SPARSE_TARGET)).2 = true.
Proof.
  destruct (unconstrained_problem (H:=z_size_laws) (problem_free SPARSE_TARGET)
              eq_refl) as [Hc Ht].
  split; [by rewrite Hc|exact Ht].
Defined.
End Canonical.

Section Enumeration.

(** The objective refers to [x] with two rows, a constraint to an object
    with the same id and three rows: the slots are those of the latter. *)
Lemma variables_last_wins_witness :
  x3 ∈ variables (aff (2, 1) [x] [1; 1]%Z) [con 1 (aff (3, 1) [x3] [1]%Z)]
  ∧ variable_ids
      (variables (aff (2, 1) [x] [1; 1]%Z) [con 1 (aff (3, 1) [x3] [1]%Z)])
    = [IndexId "x" 0 0; IndexId "x" 1 0; IndexId "x" 2 0].
Proof.
  split; [|reflexivity].
  apply (variables_last_wins (aff (2, 1) [x] [1; 1]%Z)
           [con 1 (aff (3, 1) [x3] [1]%Z)] [x] [] x3); [reflexivity|].
  intros Hin. by apply elem_of_nil in Hin.
Defined.
End Enumeration.
End FurtherEvaluation.
